(** * node-cqrs: the event store and the aggregate runtime

    A shallow embedding of [src/EventStore.js] and of the
    [AbstractAggregate] class, and the properties of the two that the
    specification states.

    Conventions of the embedding.
    - JavaScript values are the inductive type [JS.value]; an object is
      the finite map of its own enumerable string-keyed properties, so
      [Object.assign] is a union of maps.  Objects have no identity in
      the model: nothing below compares two objects with [===].
    - A statement that may throw is a [completion]; a method that also
      reads or writes the mutable parts of the program (the emitter's
      registry, the named-queue map, the closures created by [once], the
      calls made to collaborators) is a state transformer [M] over
      [world].
    - The storage and the message bus are collaborators: their answers
      are functions of the calls seen so far, and every call made to
      them is recorded in the trace of the [world].
    - User callbacks (handlers, filters, [state.mutate]) return
      normally; a handler call is recorded in the trace, a filter is
      consulted for its result only.  What the program itself throws
      (argument errors, validation errors, a property read on
      [undefined]) is modelled, and so is a collaborator promise that
      rejects.
    - Counters ([version], lengths) are natural numbers: the JavaScript
      numbers that hold them are exact for every count below 2^53.
    - The [debug] and [info] log lines are left out. *)

From Stdlib Require Import Ascii String.
From stdpp Require Import gmap strings list fin_maps pretty.

Set Warnings "-register-all".
Open Scope string_scope.
Open Scope list_scope.

(* ===================================================================== *)
(** * Part I: the model                                                   *)
(* ===================================================================== *)

(** ** JavaScript values *)

Module JS.

Inductive value : Type :=
  | VUndefined
  | VNull
  | VBool (b : bool)
  | VNum (n : Z)
  | VStr (s : string)
  | VFun (f : nat)
  | VArr (l : list value)
  | VObj (o : gmap string value).

Inductive error : Type :=
  | TypeError (msg : string)
  | SyntaxError (msg : string)
  | Error (msg : string).

(** The outcome of evaluating a statement: a value, or a thrown error. *)
Inductive completion (A : Type) : Type :=
  | Normal (a : A)
  | Throw (e : error).
Arguments Normal {A} a.
Arguments Throw {A} e.

(** A settled promise. *)
Inductive settled (A : Type) : Type :=
  | Fulfilled (a : A)
  | Rejected (e : error).
Arguments Fulfilled {A} a.
Arguments Rejected {A} e.

#[global] Instance completion_ret : MRet completion := fun A a => Normal a.
#[global] Instance completion_bind : MBind completion := fun A B k c =>
  match c with
  | Normal a => k a
  | Throw e => Throw e
  end.

(** [ToBoolean]. *)
Definition truthy (v : value) : bool :=
  match v with
  | VUndefined | VNull => false
  | VBool b => b
  | VNum n => negb (n =? 0)%Z
  | VStr s => negb (bool_decide (s = ""))
  | VFun _ | VArr _ | VObj _ => true
  end.

Definition typeof (v : value) : string :=
  match v with
  | VUndefined => "undefined"
  | VNull | VArr _ | VObj _ => "object"
  | VBool _ => "boolean"
  | VNum _ => "number"
  | VStr _ => "string"
  | VFun _ => "function"
  end.

Definition isArray (v : value) : bool :=
  match v with VArr _ => true | _ => false end.

(** The characters of a string, each as a one-character string. *)
Definition chars (s : string) : list value :=
  (fun c => VStr (String c EmptyString)) <$> list_ascii_of_string s.

(** The indexed properties of an array or of a string. *)
Definition indexed (l : list value) : gmap string value :=
  list_to_map (imap (fun i x => (pretty i, x)) l).

(** The own enumerable properties of a value once it is converted to an
    object: what [Object.assign] copies out of a source. *)
Definition own_props (v : value) : gmap string value :=
  match v with
  | VObj o => o
  | VArr l => indexed l
  | VStr s => indexed (chars s)
  | VUndefined | VNull | VBool _ | VNum _ | VFun _ => ∅
  end.

(** [o[k]] for an object given by its own properties. *)
Definition get (o : gmap string value) (k : string) : value :=
  match o !! k with
  | Some v => v
  | None => VUndefined
  end.

(** The number that a string of decimal digits writes. *)
Fixpoint digits (s : string) (acc : nat) : option nat :=
  match s with
  | EmptyString => Some acc
  | String c r =>
      let n := nat_of_ascii c in
      if (48 <=? n)%nat && (n <=? 57)%nat
      then digits r (10 * acc + (n - 48))
      else None
  end.

(** The array index that a property key names, if it names one. *)
Definition index_of (k : string) : option nat :=
  match k with
  | EmptyString => None
  | _ =>
      match digits k 0 with
      | Some n => if bool_decide (pretty n = k) then Some n else None
      | None => None
      end
  end.

Definition at_index (l : list value) (k : string) : value :=
  match index_of k with
  | Some n => match l !! n with Some v => v | None => VUndefined end
  | None => VUndefined
  end.

(** [v.k] for a value that is neither [undefined] nor [null]. *)
Definition prop (v : value) (k : string) : value :=
  match v with
  | VObj o => get o k
  | VArr l =>
      if bool_decide (k = "length") then VNum (Z.of_nat (length l))
      else at_index l k
  | VStr s =>
      if bool_decide (k = "length") then VNum (Z.of_nat (String.length s))
      else at_index (chars s) k
  | _ => VUndefined
  end.

Arguments get : simpl never.

(** [v.k] in general: reading a property of [undefined] or [null] throws. *)
Definition get_prop (v : value) (k : string) : completion value :=
  match v with
  | VUndefined | VNull =>
      Throw (TypeError ("Cannot read property '" +:+ k +:+ "' of " +:+
                        (if v is VNull then "null" else "undefined")))
  | _ => Normal (prop v k)
  end.

(** [Object.assign(target, ...sources)]: the sources are copied from left
    to right, a later source overwriting the keys of an earlier one. *)
Definition Object_assign (target : gmap string value) (sources : list value)
  : gmap string value :=
  foldl (fun t s => own_props s ∪ t) target sources.

(** [v === VStr s], for a comparison against a string. *)
Definition is_string (s : string) (v : value) : bool :=
  match v with
  | VStr s' => bool_decide (s' = s)
  | _ => false
  end.

End JS.

Import JS.

(** ** JSON

    [JSON.stringify] and [JSON.parse] on the values of the model: numbers
    are integers and strings are sequences of 8-bit characters.  A text
    outside that fragment (a fraction, an exponent, a [\u] escape above
    255) is [Unmodelled], which is neither a value nor a syntax
    error. *)

Module JSON.

Definition dquote : ascii := ascii_of_N 34.

Definition hex_digit (n : N) : ascii :=
  ascii_of_N (if (n <? 10)%N then 48 + n else 87 + n).

Fixpoint escape (s : string) : string :=
  match s with
  | EmptyString => ""
  | String c r =>
      (if Ascii.eqb c dquote then String "\"%char (String dquote "")
       else if Ascii.eqb c "\"%char then "\\"
       else if (N_of_ascii c <? 32)%N then
         "\u00" +:+ String (hex_digit (N_of_ascii c / 16))
                      (String (hex_digit (N_of_ascii c mod 16)) "")
       else String c "") +:+ escape r
  end.

Definition quote (s : string) : string :=
  String dquote (escape s +:+ String dquote "").

(** The text of a value, or [None] where [JSON.stringify] gives
    [undefined].  Inside an array such a value is written [null], inside
    an object its property is left out. *)
Fixpoint text (v : value) : option string :=
  match v with
  | VUndefined | VFun _ => None
  | VNull => Some "null"
  | VBool b => Some (if b then "true" else "false")
  | VNum n => Some (pretty n)
  | VStr s => Some (quote s)
  | VArr l =>
      Some ("[" +:+ String.concat "," ((fun x => default "null" (text x)) <$> l)
                +:+ "]")
  | VObj o =>
      Some ("{" +:+ String.concat ","
                      (map_fold (fun k x acc =>
                                   match text x with
                                   | Some t => (quote k +:+ ":" +:+ t) :: acc
                                   | None => acc
                                   end) [] o)
                +:+ "}")
  end.

Definition stringify (v : value) : value :=
  match text v with
  | Some t => VStr t
  | None => VUndefined
  end.

Inductive parsed (A : Type) : Type :=
  | Parsed (a : A) (rest : list ascii)
  | Malformed
  | Unmodelled.
Arguments Parsed {A} a rest.
Arguments Malformed {A}.
Arguments Unmodelled {A}.

Definition is_ws (c : ascii) : bool :=
  Ascii.eqb c " "%char || (N_of_ascii c =? 9)%N ||
  (N_of_ascii c =? 10)%N || (N_of_ascii c =? 13)%N.

Fixpoint skip_ws (s : list ascii) : list ascii :=
  match s with
  | c :: r => if is_ws c then skip_ws r else s
  | [] => []
  end.

Fixpoint strip_prefix (p s : list ascii) : option (list ascii) :=
  match p, s with
  | [], _ => Some s
  | c :: p', d :: s' => if Ascii.eqb c d then strip_prefix p' s' else None
  | _ :: _, [] => None
  end.

Definition digit_of (c : ascii) : option Z :=
  let n := N_of_ascii c in
  if (48 <=? n)%N && (n <=? 57)%N then Some (Z.of_N (n - 48)) else None.

Definition hex_of (c : ascii) : option N :=
  let n := N_of_ascii c in
  if (48 <=? n)%N && (n <=? 57)%N then Some (n - 48)%N
  else if (97 <=? n)%N && (n <=? 102)%N then Some (n - 87)%N
  else if (65 <=? n)%N && (n <=? 70)%N then Some (n - 55)%N
  else None.

Fixpoint parse_digits (acc : Z) (s : list ascii) : Z * list ascii :=
  match s with
  | c :: r =>
      match digit_of c with
      | Some d => parse_digits (10 * acc + d) r
      | None => (acc, s)
      end
  | [] => (acc, [])
  end.

(** An integer: [0], or a non-zero digit followed by digits. *)
Definition parse_nat (s : list ascii) : parsed Z :=
  match s with
  | c :: r =>
      match digit_of c with
      | Some 0%Z => Parsed 0%Z r
      | Some d => let '(n, r') := parse_digits d r in Parsed n r'
      | None => Malformed
      end
  | [] => Malformed
  end.

Definition parse_number (s : list ascii) : parsed value :=
  let '(sign, s') :=
    match s with
    | c :: r => if Ascii.eqb c "-"%char then ((-1)%Z, r) else (1%Z, s)
    | [] => (1%Z, s)
    end in
  match parse_nat s' with
  | Parsed n r =>
      match r with
      | c :: _ =>
          if Ascii.eqb c "."%char || Ascii.eqb c "e"%char || Ascii.eqb c "E"%char
          then Unmodelled
          else Parsed (VNum (sign * n)) r
      | [] => Parsed (VNum (sign * n)) r
      end
  | Malformed => Malformed
  | Unmodelled => Unmodelled
  end.

(** The characters of a string literal, after its opening quote. *)
Fixpoint parse_string (s : list ascii) : parsed string :=
  match s with
  | [] => Malformed
  | c :: r =>
      if Ascii.eqb c dquote then Parsed "" r
      else if (N_of_ascii c <? 32)%N then Malformed
      else if Ascii.eqb c "\"%char then
        match r with
        | e :: r' =>
            let simple (d : ascii) :=
              match parse_string r' with
              | Parsed t r'' => Parsed (String d t) r''
              | other => other
              end in
            if Ascii.eqb e dquote then simple dquote
            else if Ascii.eqb e "\"%char then simple "\"%char
            else if Ascii.eqb e "/"%char then simple "/"%char
            else if Ascii.eqb e "b"%char then simple (ascii_of_N 8)
            else if Ascii.eqb e "f"%char then simple (ascii_of_N 12)
            else if Ascii.eqb e "n"%char then simple (ascii_of_N 10)
            else if Ascii.eqb e "r"%char then simple (ascii_of_N 13)
            else if Ascii.eqb e "t"%char then simple (ascii_of_N 9)
            else if Ascii.eqb e "u"%char then
              match r' with
              | h1 :: h2 :: h3 :: h4 :: r'' =>
                  match hex_of h1, hex_of h2, hex_of h3, hex_of h4 with
                  | Some a, Some b, Some c3, Some d =>
                      if (a =? 0)%N && (b =? 0)%N then
                        match parse_string r'' with
                        | Parsed t r3 =>
                            Parsed (String (ascii_of_N (16 * c3 + d)) t) r3
                        | other => other
                        end
                      else Unmodelled
                  | _, _, _, _ => Malformed
                  end
              | _ => Malformed
              end
            else Malformed
        | [] => Malformed
        end
      else
        match parse_string r with
        | Parsed t r' => Parsed (String c t) r'
        | other => other
        end
  end.

Definition lit (s : string) : list ascii := list_ascii_of_string s.

(** Recursive descent over the text; the fuel bounds the number of
    nested calls, and running out of it is [Unmodelled]. *)
Fixpoint parse_value (fuel : nat) (s : list ascii) : parsed value :=
  match fuel with
  | O => Unmodelled
  | S fuel =>
      let s := skip_ws s in
      match strip_prefix (lit "null") s with
      | Some r => Parsed VNull r
      | None =>
      match strip_prefix (lit "true") s with
      | Some r => Parsed (VBool true) r
      | None =>
      match strip_prefix (lit "false") s with
      | Some r => Parsed (VBool false) r
      | None =>
      match s with
      | [] => Malformed
      | c :: r =>
          if Ascii.eqb c dquote then
            match parse_string r with
            | Parsed t r' => Parsed (VStr t) r'
            | Malformed => Malformed
            | Unmodelled => Unmodelled
            end
          else if Ascii.eqb c "["%char then
            match skip_ws r with
            | d :: r' =>
                if Ascii.eqb d "]"%char then Parsed (VArr []) r'
                else parse_elements fuel r []
            | [] => Malformed
            end
          else if Ascii.eqb c "{"%char then
            match skip_ws r with
            | d :: r' =>
                if Ascii.eqb d "}"%char then Parsed (VObj ∅) r'
                else parse_members fuel r ∅
            | [] => Malformed
            end
          else parse_number s
      end end end end
  end
with parse_elements (fuel : nat) (s : list ascii) (acc : list value)
  : parsed value :=
  match fuel with
  | O => Unmodelled
  | S fuel =>
      match parse_value fuel s with
      | Parsed v r =>
          match skip_ws r with
          | c :: r' =>
              if Ascii.eqb c ","%char then parse_elements fuel r' (acc ++ [v])
              else if Ascii.eqb c "]"%char then Parsed (VArr (acc ++ [v])) r'
              else Malformed
          | [] => Malformed
          end
      | Malformed => Malformed
      | Unmodelled => Unmodelled
      end
  end
with parse_members (fuel : nat) (s : list ascii) (acc : gmap string value)
  : parsed value :=
  match fuel with
  | O => Unmodelled
  | S fuel =>
      match skip_ws s with
      | q :: r =>
          if Ascii.eqb q dquote then
            match parse_string r with
            | Parsed k r1 =>
                match skip_ws r1 with
                | c :: r2 =>
                    if Ascii.eqb c ":"%char then
                      match parse_value fuel r2 with
                      | Parsed v r3 =>
                          match skip_ws r3 with
                          | d :: r4 =>
                              if Ascii.eqb d ","%char
                              then parse_members fuel r4 (<[k:=v]> acc)
                              else if Ascii.eqb d "}"%char
                              then Parsed (VObj (<[k:=v]> acc)) r4
                              else Malformed
                          | [] => Malformed
                          end
                      | Malformed => Malformed
                      | Unmodelled => Unmodelled
                      end
                    else Malformed
                | [] => Malformed
                end
            | Malformed => Malformed
            | Unmodelled => Unmodelled
            end
          else Malformed
      | [] => Malformed
      end
  end.

(** [ToString] of the argument of [JSON.parse]; the text of an array or of
    a function is not modelled. *)
Definition to_string (v : value) : option string :=
  match v with
  | VUndefined => Some "undefined"
  | VNull => Some "null"
  | VBool b => Some (if b then "true" else "false")
  | VNum n => Some (pretty n)
  | VStr s => Some s
  | VObj _ => Some "[object Object]"
  | VArr _ | VFun _ => None
  end.

(** [JSON.parse(v)]: [None] outside the modelled fragment. *)
Definition parse (v : value) : option (completion value) :=
  s ← to_string v;
  let cs := list_ascii_of_string s in
  match parse_value (2 * length cs + 2) cs with
  | Parsed r rest =>
      Some (if skip_ws rest is [] then Normal r
            else Throw (SyntaxError "Unexpected token in JSON"))
  | Malformed => Some (Throw (SyntaxError "Unexpected token in JSON"))
  | Unmodelled => None
  end.

End JSON.



(** ** The aggregate runtime ([AbstractAggregate]) *)

(** The state object of an aggregate: anything with a [mutate(event)]
    method.  [state_data] is the data that [JSON.stringify] sees in it. *)
Class AggregateState (St : Type) : Type := {
  state_mutate : St → value → St;
  state_data : St → value
}.

Section AbstractAggregate.

Context {St : Type} `{AggregateState St}.

(** The private fields [this[_id]], [this[_version]], [this[_changes]] and
    [this[_state]]. *)
Record aggregate : Type := Aggregate {
  _id : value;
  _version : nat;
  _changes : list value;
  _state : option St
}.

(** The argument of the constructor: [state] is absent or a state
    object, so [options.state || undefined] is [options.state]. *)
Record options : Type := Options {
  opt_id : value;
  opt_state : option St;
  opt_events : value
}.

(** [validateHandlers] is not among the sources: its outcome on the
    instance under construction is a parameter. *)
Variable validateHandlers : aggregate → completion unit.

Definition id (this : aggregate) : value := _id this.
Definition version (this : aggregate) : nat := _version this.
Definition changes (this : aggregate) : list value := _changes this.
Definition state (this : aggregate) : option St := _state this.

(** [JSON.parse(JSON.stringify(this.state))]. *)
Definition snapshot (this : aggregate) : option (completion value) :=
  JSON.parse
    (JSON.stringify
       (match state this with
        | Some s => state_data s
        | None => VUndefined
        end)).

(** Mutates aggregate state and increments aggregate version. *)
Definition mutate (this : aggregate) (event : value) : aggregate :=
  {| _id := _id this;
     _version := S (_version this);
     _changes := _changes this;
     _state := match state this with
               | Some s => Some (state_mutate s event)
               | None => None
               end |}.

Definition constructor (opts : option options) : completion aggregate :=
  match opts with
  | None => Throw (TypeError "options argument required")
  | Some o =>
      if negb (truthy (opt_id o)) then
        Throw (TypeError "options.id argument required")
      else if truthy (opt_events o) && negb (isArray (opt_events o)) then
        Throw (TypeError
                 "options.events argument, when provided, must be an Array")
      else
        let this := {| _id := opt_id o; _version := 0; _changes := [];
                       _state := opt_state o |} in
        _ ← validateHandlers this;
        match opt_events o with
        | VArr events => Normal (foldl mutate this events)
        | _ => Normal this
        end
  end.

(** Registers new aggregate event and mutates aggregate state. *)
Definition emit (this : aggregate) (eventType eventPayload : value)
  : completion aggregate :=
  if bool_decide (typeof eventType ≠ "string")
     || negb (truthy (prop eventType "length")) then
    Throw (TypeError "eventType argument must be a non-empty string")
  else
    let event :=
      VObj (<["aggregateId" := id this]>
            (<["version" := VNum (Z.of_nat (version this))]>
             (<["type" := eventType]>
              (<["payload" := eventPayload]> ∅)))) in
    let this := mutate this event in
    Normal {| _id := _id this; _version := _version this;
              _changes := _changes this ++ [event];
              _state := _state this |}.

End AbstractAggregate.

Arguments aggregate St : clear implicits.
Arguments options St : clear implicits.

(** ** The event store ([EventStore.js]) *)

(** Modelled from the spec: the module [EventStream] is not among the
    sources.  An event stream is an ordered sequence of events, and
    [EventStream.from(events, f)] constructs it from a raw sequence with a
    per-element transform. *)
Definition EventStream_from (events : list value) (f : value → value)
  : list value :=
  f <$> events.

(** Validate event structure. *)
Definition validateEvent (event : value) : completion unit :=
  if bool_decide (typeof event ≠ "object") || negb (truthy event) then
    Throw (TypeError "event must be an Object")
  else if bool_decide (typeof (prop event "type") ≠ "string")
          || negb (truthy (prop (prop event "type") "length")) then
    Throw (TypeError "event.type must be a non-empty String")
  else if negb (truthy (prop event "aggregateId"))
          && negb (truthy (prop event "sagaId")) then
    Throw (TypeError "either event.aggregateId or event.sagaId is required")
  else if truthy (prop event "sagaId")
          && bool_decide (typeof (prop event "sagaVersion") = "undefined") then
    Throw (TypeError
             "event.sagaVersion is required, when event.sagaId is defined")
  else Normal tt.

(** A configured string, as the value the program reads. *)
Definition opt_str (s : option string) : value :=
  match s with
  | Some s => VStr s
  | None => VUndefined
  end.

(** The same string, inside a template literal. *)
Definition in_template (s : option string) : string :=
  match s with
  | Some s => s
  | None => "undefined"
  end.

(** The object [extension] of [augmentEvents]. *)
Definition extension (sourceCommand : gmap string value)
    (hostname : option string) : gmap string value :=
  let sagaId := get sourceCommand "sagaId" in
  let sagaVersion := get sourceCommand "sagaVersion" in
  let context := get sourceCommand "context" in
  <["sagaId" := sagaId]>
    (<["sagaVersion" := sagaVersion]>
       (<["context" :=
            if truthy (opt_str hostname) then
              VObj (Object_assign {["hostname" := opt_str hostname]} [context])
            else context]> ∅)).

(** Attaches command and node fields to each event in a given array.
    [sourceCommand] is [None] when the caller passes none, and the
    default parameter value [{}] takes its place. *)
Definition augmentEvents (events : value)
    (sourceCommand : option (gmap string value)) (hostname : option string)
  : completion (list value) :=
  match events with
  | VArr events =>
      let sourceCommand := default ∅ sourceCommand in
      Normal (EventStream_from events (fun event =>
                VObj (Object_assign ∅
                        [VObj (extension sourceCommand hostname); event])))
  | _ => Throw (TypeError "events argument must be an Array")
  end.

(** The functions the store hands to its emitter. *)
Inductive listener : Type :=
  | LUser (f : nat) (queueName : option string)
      (** a handler passed on as it is, with the options given to [on] *)
  | LQueue (handlerKey : string) (f : nat)
      (** the wrapper that [on] builds around the handler of a named queue *)
  | LOnce (k : nat)
      (** [filteredHandler] of the [k]-th call of [once] *).

#[global] Instance listener_eq_dec : EqDecision listener.
Proof. solve_decision. Defined.

(** What the program does to the outside, in the order it does it. *)
Inductive effect : Type :=
  | CommitEvents (stream : list value)
      (** [storage.commitEvents(eventStream)] *)
  | Publish (event : value)
      (** [bus.publish(event)] *)
  | SetImmediate (stream : list value)
      (** [setImmediate(publishEvents)], for the stream to publish later *)
  | Call (by_ : listener) (f : nat) (event : value)
      (** a listener calls the user's handler [f] *)
  | Resolve (k : nat) (event : value)
      (** [resolve(event)] of the promise that the [k]-th [once] returned *).

(** The variables that [filteredHandler] closes over, and the promise. *)
Record closure : Type := Closure {
  c_messageTypes : list string;
  c_handler : value;
  c_filter : value;
  c_handled : bool;
  c_result : option value
}.

(** The mutable part of the program. *)
Record world : Type := World {
  namedQueues : gmap string nat;          (** [this[_namedQueues]] *)
  handlers : gmap string (list listener); (** the registry of the emitter *)
  closures : list closure;                (** one per call of [once] *)
  trace : list effect
}.

Definition empty_world : world :=
  {| namedQueues := ∅; handlers := ∅; closures := []; trace := [] |}.

Definition M (A : Type) : Type := world → completion A * world.

#[global] Instance M_ret : MRet M := fun A a w => (Normal a, w).
#[global] Instance M_bind : MBind M := fun A B k m w =>
  match m w with
  | (Normal a, w') => k a w'
  | (Throw e, w') => (Throw e, w')
  end.

Definition throw {A : Type} (e : error) : M A := fun w => (Throw e, w).

Definition lift {A : Type} (c : completion A) : M A := fun w => (c, w).

Definition set_trace (tr : list effect) (w : world) : world :=
  {| namedQueues := namedQueues w; handlers := handlers w;
     closures := closures w; trace := tr |}.

Definition record (e : effect) : M unit := fun w =>
  (Normal tt, set_trace (trace w ++ [e]) w).

(** The body of an [async] function: its promise is fulfilled with the
    value returned, or rejected with the error thrown. *)
Definition async {A : Type} (body : M A) : M (settled A) := fun w =>
  match body w with
  | (Normal a, w') => (Normal (Fulfilled a), w')
  | (Throw e, w') => (Normal (Rejected e), w')
  end.

Definition await {A : Type} (p : settled A) : M A :=
  match p with
  | Fulfilled a => mret a
  | Rejected e => throw e
  end.

(** [array.forEach(f)] for an [f] that may throw. *)
Fixpoint forEach (f : value → completion unit) (l : list value)
  : completion unit :=
  match l with
  | [] => Normal tt
  | x :: r => _ ← f x; forEach f r
  end.

(** The earliest rejection among promises given with the tick at which
    each settles; of two that settle at the same tick the first in the
    list counts. *)
Definition earlier (best : option (nat * error)) (p : nat * settled unit)
  : option (nat * error) :=
  match p, best with
  | (t, Rejected e), Some (t', _) =>
      if (t <? t')%nat then Some (t, e) else best
  | (t, Rejected e), None => Some (t, e)
  | (_, Fulfilled _), _ => best
  end.

Definition first_rejection (ps : list (nat * settled unit))
  : option (nat * error) :=
  foldl earlier None ps.

(** [Promise.all]: fulfilled when every promise is, rejected with the
    reason of the first promise that rejects. *)
Definition Promise_all (ps : list (nat * settled unit)) : settled unit :=
  match first_rejection ps with
  | Some (_, e) => Rejected e
  | None => Fulfilled tt
  end.

(** The collaborators.  The promise a call returns is a function of the
    calls made so far and of the argument; a promise of [publish] comes
    with the tick at which it settles. *)
Record Storage : Type := {
  commitEvents : list effect → list value → settled unit
}.

Record Bus : Type := {
  publish : list effect → value → nat * settled unit
}.

(** Modelled from the spec: the emitter (the message bus, or the storage
    when it can emit) is not among the sources.  It keeps, per message
    type, the listeners in the order they subscribed; it may have native
    named-queue support ([supportsQueues] on its constructor), and it
    unsubscribes a listener through [removeListener] or [off], whichever
    it has. *)
Record Emitter : Type := {
  supportsQueues : bool
}.

Record Config : Type := {
  hostname : option string;
  publishAsync : bool
}.

Definition defaults : Config :=
  {| hostname := None; publishAsync := true |}.

(** The private fields of a store that never change once it is built. *)
Record EventStore : Type := {
  _config : Config;
  _storage : Storage;
  _bus : option Bus;
  _emitter : Emitter;
  _validator : value → completion unit
}.

Definition emitterSupportsQueues (emitter : Emitter) : bool :=
  supportsQueues emitter.

Definition set_handlers (h : gmap string (list listener)) : M unit := fun w =>
  (Normal tt,
   {| namedQueues := namedQueues w; handlers := h;
      closures := closures w; trace := trace w |}).

Definition set_namedQueues (q : gmap string nat) : M unit := fun w =>
  (Normal tt,
   {| namedQueues := q; handlers := handlers w;
      closures := closures w; trace := trace w |}).

Definition set_closures (c : list closure) : M unit := fun w =>
  (Normal tt,
   {| namedQueues := namedQueues w; handlers := handlers w;
      closures := c; trace := trace w |}).

Definition listeners_of (w : world) (messageType : string) : list listener :=
  default [] (handlers w !! messageType).

(** Modelled from the spec: [emitter.on(messageType, listener)] puts the
    listener after those already subscribed to the type. *)
Definition emitter_on (messageType : string) (l : listener) : M unit :=
  fun w =>
    set_handlers
      (<[messageType := listeners_of w messageType ++ [l]]> (handlers w)) w.

Fixpoint remove_first (l : listener) (ls : list listener) : list listener :=
  match ls with
  | [] => []
  | x :: r => if decide (x = l) then r else x :: remove_first l r
  end.

(** Modelled from the spec: [emitter.removeListener(messageType, listener)]
    and [emitter.off(messageType, listener)] take one subscription of the
    listener to the type away. *)
Definition emitter_off (messageType : string) (l : listener) : M unit :=
  fun w =>
    set_handlers
      (<[messageType := remove_first l (listeners_of w messageType)]>
         (handlers w)) w.

(** [for (const x of xs) body(x)]. *)
Fixpoint for_of {A : Type} (xs : list A) (body : A → M unit) : M unit :=
  match xs with
  | [] => mret tt
  | x :: r => _ ← body x; for_of r body
  end.

(** [eventStream.map(event => this[_bus].publish(event))]. *)
Fixpoint publish_each (bus : Bus) (stream : list value)
  : M (list (nat * settled unit)) :=
  match stream with
  | [] => mret []
  | event :: r =>
      p ← (fun w => (Normal (publish bus (trace w) event), w));
      _ ← record (Publish event);
      ps ← publish_each bus r;
      mret (p :: ps)
  end.

(** Validate events, commit to storage and publish to messageBus, if
    needed. *)
Definition commit (this : EventStore) (events : value)
    (sourceCommand : option (gmap string value)) : M (settled value) :=
  async
    (if negb (isArray events) then
       throw (TypeError "events argument must be an Array")
     else if negb (truthy (prop events "length")) then mret events
     else
       let hostname := hostname (_config this) in
       eventStream ← lift (augmentEvents events sourceCommand hostname);
       _ ← lift (forEach (_validator this) eventStream);
       committed ← (fun w =>
          (Normal (commitEvents (_storage this) (trace w) eventStream), w));
       _ ← record (CommitEvents eventStream);
       _ ← await committed;
       _ ← match _bus this with
           | Some bus =>
               if publishAsync (_config this) then
                 record (SetImmediate eventStream)
               else
                 published ← publish_each bus eventStream;
                 await (Promise_all published)
           | None => mret tt
           end;
       mret (VArr eventStream)).

(** Setup a listener for a specific event type. *)
Definition on (this : EventStore) (messageType handler : value)
    (queueName : option string) : M unit :=
  match messageType with
  | VStr messageType =>
      if negb (truthy (prop (VStr messageType) "length")) then
        throw (TypeError "messageType argument must be a non-empty String")
      else
        match handler with
        | VFun h =>
            if truthy (opt_str queueName)
               && negb (emitterSupportsQueues (_emitter this)) then
              if negb (truthy (opt_str (hostname (_config this)))) then
                throw (Error ("'" +:+ messageType +:+
                  "' handler could not be set up, unique config.hostname is required for named queue subscriptions"))
              else
                let handlerKey :=
                  in_template queueName +:+ ":" +:+ messageType in
                fun w =>
                  if bool_decide (is_Some (namedQueues w !! handlerKey)) then
                    throw (Error ("'" +:+ handlerKey +:+
                                  "' handler already set up on this node")) w
                  else
                    (_ ← set_namedQueues (<[handlerKey := h]> (namedQueues w));
                     emitter_on messageType (LQueue handlerKey h)) w
            else emitter_on messageType (LUser h queueName)
        | _ => throw (TypeError "handler argument must be a Function")
        end
  | _ => throw (TypeError "messageType argument must be a non-empty String")
  end.

(** [if (!Array.isArray(messageTypes)) messageTypes = [messageTypes]]. *)
Definition as_array (messageTypes : value) : list value :=
  match messageTypes with
  | VArr l => l
  | _ => [messageTypes]
  end.

(** The message types as strings, which [once] has checked them to be. *)
Definition type_names (messageTypes : list value) : list string :=
  omap (fun t => if t is VStr s then Some s else None) messageTypes.

Section Listeners.

(** What a user's function returns when it is called on a value. *)
Variable call_result : nat → value → value.

Definition call (fn arg : value) : value :=
  match fn with
  | VFun f => call_result f arg
  | _ => VUndefined
  end.

(** [resolve(event)]: settles the promise if it is still pending. *)
Definition resolve (k : nat) (event : value) : M unit := fun w =>
  (_ ← set_closures
         (alter (fun c =>
                   {| c_messageTypes := c_messageTypes c;
                      c_handler := c_handler c; c_filter := c_filter c;
                      c_handled := c_handled c;
                      c_result := match c_result c with
                                  | None => Some event
                                  | Some r => Some r
                                  end |}) k (closures w));
   record (Resolve k event)) w.

Definition set_handled (k : nat) : M unit := fun w =>
  set_closures
    (alter (fun c =>
              {| c_messageTypes := c_messageTypes c;
                 c_handler := c_handler c; c_filter := c_filter c;
                 c_handled := true; c_result := c_result c |}) k (closures w))
    w.

(** [filteredHandler] of the [k]-th call of [once]. *)
Definition filteredHandler (k : nat) (event : value) : M unit := fun w =>
  match closures w !! k with
  | None => (Normal tt, w)
  | Some c =>
      if truthy (c_filter c) && negb (truthy (call (c_filter c) event)) then
        (Normal tt, w)
      else if c_handled c then (Normal tt, w)
      else
        (_ ← set_handled k;
         _ ← for_of (c_messageTypes c) (fun messageType =>
                emitter_off messageType (LOnce k));
         _ ← match c_handler c with
             | VFun h => record (Call (LOnce k) h event)
             | _ => mret tt
             end;
         resolve k event) w
  end.

(** [event.context.hostname !== this.config.hostname]. *)
Definition other_node (this : EventStore) (v : value) : bool :=
  match hostname (_config this) with
  | Some h => negb (is_string h v)
  | None => if v is VUndefined then false else true
  end.

(** The function a listener stands for, applied to an event. *)
Definition run_listener (this : EventStore) (l : listener) (event : value)
  : M unit :=
  match l with
  | LUser f _ => record (Call l f event)
  | LQueue _ f =>
      context ← lift (get_prop event "context");
      node ← lift (get_prop context "hostname");
      if other_node this node then mret tt
      else record (Call l f event)
  | LOnce k => filteredHandler k event
  end.

(** Modelled from the spec: the emitter delivers an event to the
    listeners subscribed to its type when the delivery starts, in their
    order, so that a listener taken off during the delivery is still
    called (the case the comment in [once] refers to); a listener that
    throws ends the delivery. *)
Definition deliver (this : EventStore) (event : value) : M unit := fun w =>
  match prop event "type" with
  | VStr messageType =>
      for_of (listeners_of w messageType)
        (fun l => run_listener this l event) w
  | _ => (Normal tt, w)
  end.

(** Creates one-time subscription for one or multiple events that match
    a filter; the result is the number of the promise it returns. *)
Definition once (messageTypes handler filter : value) : M nat :=
  let messageTypes := as_array messageTypes in
  if negb (length (List.filter
                     (fun t => negb (truthy t)
                               || bool_decide (typeof t ≠ "string"))
                     messageTypes) =? 0)%nat then
    throw (TypeError "messageType argument must be either a non-empty String or an Array of non-empty Strings")
  else if truthy handler && bool_decide (typeof handler ≠ "function") then
    throw (TypeError "handler argument, when specified, must be a Function")
  else if truthy filter && bool_decide (typeof filter ≠ "function") then
    throw (TypeError "filter argument, when specified, must be a Function")
  else
    fun w =>
      let k := length (closures w) in
      (_ ← set_closures
             (closures w ++
                [{| c_messageTypes := type_names messageTypes;
                    c_handler := handler; c_filter := filter;
                    c_handled := false; c_result := None |}]);
       _ ← for_of (type_names messageTypes) (fun messageType =>
              emitter_on messageType (LOnce k));
       mret k) w.

(** The events of a list delivered one after the other, up to the first
    delivery that throws. *)
Fixpoint deliver_all (this : EventStore) (events : list value) : M unit :=
  match events with
  | [] => mret tt
  | event :: r => _ ← deliver this event; deliver_all this r
  end.

End Listeners.

(** ** Notions used to state the properties *)

(** The promises that [publish_each] collects: the answer of the bus to
    each event of the stream, given the calls made before it. *)
Fixpoint publish_results (bus : Bus) (tr : list effect) (stream : list value)
  : list (nat * settled unit) :=
  match stream with
  | [] => []
  | event :: r =>
      publish bus tr event :: publish_results bus (tr ++ [Publish event]) r
  end.

(** A field is present when it holds a truthy value. *)
Definition present (v : value) : Prop := truthy v = true.

(** The rules of the default validator, in the words of the
    specification: the type is a non-empty string, [aggregateId] or
    [sagaId] is present, and [sagaVersion] is defined when [sagaId] is
    present. *)
Definition valid_event (event : value) : Prop :=
  ∃ o, event = VObj o ∧
    (∃ s, o !! "type" = Some (VStr s) ∧ s ≠ "") ∧
    (present (get o "aggregateId") ∨ present (get o "sagaId")) ∧
    (present (get o "sagaId") → get o "sagaVersion" ≠ VUndefined).

(** [o] is [base] extended with the properties of [top], the properties
    of [top] taking precedence. *)
Definition merged_over (o base top : gmap string value) : Prop :=
  ∀ k, o !! k = match top !! k with
                | Some v => Some v
                | None => base !! k
                end.

(** The number of times [x] occurs in [l]. *)
Fixpoint occ {A : Type} `{EqDecision A} (x : A) (l : list A) : nat :=
  match l with
  | [] => 0
  | y :: r => (if decide (y = x) then 1 else 0) + occ x r
  end.

(** The closure of a call of [once] after [filteredHandler] has let an
    event through. *)
Definition fired (event : value) (c : closure) : closure :=
  {| c_messageTypes := c_messageTypes c;
     c_handler := c_handler c;
     c_filter := c_filter c;
     c_handled := true;
     c_result := match c_result c with
                 | None => Some event
                 | Some r => Some r
                 end |}.

(** The filter of [once] lets the event through. *)
Definition passes (call_result : nat → value → value) (filter event : value)
  : bool :=
  negb (truthy filter && negb (truthy (call call_result filter event))).


(** The call that [if (handler) handler(event)] makes in the [k]-th
    [filteredHandler]. *)
Definition handler_call (k : nat) (handler event : value) : list effect :=
  match handler with
  | VFun h => [Call (LOnce k) h event]
  | _ => []
  end.

(** The events on which a given listener called the user's handler. *)
Fixpoint calls_by (l : listener) (tr : list effect) : list value :=
  match tr with
  | [] => []
  | Call l' _ event :: r =>
      if decide (l' = l) then event :: calls_by l r else calls_by l r
  | _ :: r => calls_by l r
  end.

(** The calls of the user's handlers that a given listener made: the
    handler called and the event it was called on. *)
Fixpoint calls_of (l : listener) (tr : list effect) : list (nat * value) :=
  match tr with
  | [] => []
  | Call l' f event :: r =>
      if decide (l' = l) then (f, event) :: calls_of l r else calls_of l r
  | _ :: r => calls_of l r
  end.

(** The events with which the promise of the [k]-th [once] was resolved. *)
Fixpoint resolutions (k : nat) (tr : list effect) : list value :=
  match tr with
  | [] => []
  | Resolve k' event :: r =>
      if decide (k' = k) then event :: resolutions k r else resolutions k r
  | _ :: r => resolutions k r
  end.

(** The calls made to the storage and to the bus, scheduled ones
    included. *)
Fixpoint collaborator_calls (tr : list effect) : list effect :=
  match tr with
  | [] => []
  | (CommitEvents _ | Publish _ | SetImmediate _) as e :: r =>
      e :: collaborator_calls r
  | _ :: r => collaborator_calls r
  end.

(** [event.context.hostname]. *)
Definition context_hostname (event : value) : completion value :=
  context ← get_prop event "context";
  get_prop context "hostname".

(** The event was committed on the node of this store. *)
Definition from_this_node (this : EventStore) (event : value) : bool :=
  match context_hostname event, hostname (_config this) with
  | Normal (VStr h'), Some h => bool_decide (h' = h)
  | _, _ => false
  end.

(** The event has the given type. *)
Definition has_type (messageType : string) (event : value) : bool :=
  is_string messageType (prop event "type").



(** The listeners of a world refer to closures and named queues that
    exist: a listener [LOnce k] belongs to the [k]-th call of [once], and
    a listener [LQueue key f] was entered in the map of named queues. *)
Definition wf (w : world) : Prop :=
  ∀ messageType l, l ∈ listeners_of w messageType →
    match l with
    | LOnce k => k < length (closures w)
    | LQueue key _ => is_Some (namedQueues w !! key)
    | LUser _ _ => True
    end.

(** The world [w'] keeps the named queues, the closures and the queue
    wrappers of [w]. *)
Definition extends (w w' : world) : Prop :=
  (∀ key f, namedQueues w !! key = Some f → namedQueues w' !! key = Some f)
  ∧ (length (closures w) ≤ length (closures w'))%nat
  ∧ (∀ key f messageType,
       LQueue key f ∈ listeners_of w messageType →
       LQueue key f ∈ listeners_of w' messageType).

(** What a delivery that started in [w] may have changed: listeners of
    [once] may be gone, and nothing else of the store. *)
Definition delivery_frame (w w' : world) : Prop :=
  namedQueues w' = namedQueues w
  ∧ length (closures w') = length (closures w)
  ∧ (∀ l messageType,
       l ∈ listeners_of w' messageType → l ∈ listeners_of w messageType)
  ∧ (∀ key f messageType,
       occ (LQueue key f) (listeners_of w' messageType)
       = occ (LQueue key f) (listeners_of w messageType)).

(** One call of a method of the store, or one delivery by the emitter,
    whatever its outcome. *)
Inductive step (call_result : nat → value → value) (this : EventStore)
  : world → world → Prop :=
  | step_commit events sourceCommand w r w' :
      commit this events sourceCommand w = (r, w') →
      step call_result this w w'
  | step_on messageType handler queueName w r w' :
      on this messageType handler queueName w = (r, w') →
      step call_result this w w'
  | step_once messageTypes handler filter w r w' :
      once messageTypes handler filter w = (r, w') →
      step call_result this w w'
  | step_deliver event w r w' :
      deliver call_result this event w = (r, w') →
      step call_result this w w'.

(** ** The event store: construction *)

Definition STORAGE_METHODS : list string :=
  ["commitEvents"; "getEvents"; "getAggregateEvents"; "getSagaEvents";
   "getNewId"].

Definition EMITTER_METHODS : list string := ["on"].

(** [array.findIndex(p)]. *)
Fixpoint findIndex {A : Type} (p : A → bool) (l : list A) : Z :=
  match l with
  | [] => -1
  | x :: r =>
      if p x then 0
      else let i := findIndex p r in if (i =? -1)%Z then (-1)%Z else (i + 1)%Z
  end.

(** Check whether instance has all listed methods.  The instance is given
    by the test [typeof instance[methodName] === 'function']. *)
Definition respondsTo (instance : string → bool) (methodNames : list string)
  : bool :=
  (findIndex (fun methodName => negb (instance methodName)) methodNames
   =? -1)%Z.

(** A storage object handed to the constructor: which of its properties
    are functions, what its [commitEvents] answers, and the emitter it is
    when it has an [on] method. *)
Record StorageObject : Type := {
  storage_has : string → bool;
  storage_calls : Storage;
  storage_emitter : Emitter
}.

(** A message bus handed to the constructor. *)
Record BusObject : Type := {
  bus_has : string → bool;
  bus_calls : Bus;
  bus_emitter : Emitter
}.

(** The keys of [eventStoreConfig] that are given. *)
Record ConfigOptions : Type := {
  with_hostname : option (option string);
  with_publishAsync : option bool
}.

(** [Object.assign({}, EventStore.defaults, eventStoreConfig)]. *)
Definition assign_config (eventStoreConfig : option ConfigOptions) : Config :=
  match eventStoreConfig with
  | None => defaults
  | Some c =>
      {| hostname := match with_hostname c with
                     | Some h => h
                     | None => hostname defaults
                     end;
         publishAsync := match with_publishAsync c with
                         | Some b => b
                         | None => publishAsync defaults
                         end |}
  end.

Section Construction.

(** What a function given as [eventValidator] does to an event. *)
Variable validator_of : nat → value → completion unit.

(** The bus that [new InMemoryBus()] makes; its module is not among the
    sources. *)
Variable InMemoryBus : Bus * Emitter.

(** Creates an instance of EventStore. *)
Definition new_EventStore (storage : option StorageObject)
    (messageBus : option BusObject) (eventValidator : value)
    (eventStoreConfig : option ConfigOptions) : completion EventStore :=
  match storage with
  | None => Throw (TypeError "storage argument required")
  | Some storage =>
      if negb (respondsTo (storage_has storage) STORAGE_METHODS) then
        Throw (TypeError
                 ("storage does not support methods: " +:+
                  String.concat ","
                    (List.filter
                       (fun methodName =>
                          negb (respondsTo (storage_has storage) [methodName]))
                       STORAGE_METHODS)))
      else if match messageBus with
              | Some bus => negb (respondsTo (bus_has bus) EMITTER_METHODS)
              | None => false
              end then
        Throw (TypeError
                 ("messageBus does not support methods: " +:+
                  String.concat ","
                    (List.filter
                       (fun methodName =>
                          negb (respondsTo
                                  (match messageBus with
                                   | Some bus => bus_has bus
                                   | None => fun _ => false
                                   end) [methodName]))
                       EMITTER_METHODS)))
      else if negb (if eventValidator is VUndefined then true else false)
              && bool_decide (typeof eventValidator ≠ "function") then
        Throw (TypeError "eventValidator, when provided, must be a function")
      else
        let validator :=
          match eventValidator with
          | VFun f => validator_of f
          | _ => validateEvent
          end in
        let '(bus, emitter) :=
          match messageBus with
          | Some messageBus =>
              (Some (bus_calls messageBus), bus_emitter messageBus)
          | None =>
              if respondsTo (storage_has storage) EMITTER_METHODS
              then (None, storage_emitter storage)
              else (Some InMemoryBus.1, InMemoryBus.2)
          end in
        Normal {| _config := assign_config eventStoreConfig;
                  _storage := storage_calls storage;
                  _bus := bus;
                  _emitter := emitter;
                  _validator := validator |}
  end.

End Construction.

(** ** The event store: queries *)

(** The calls that the query methods make to the storage. *)
Inductive query : Type :=
  | QNewId
  | QEvents (eventTypes : value)
  | QAggregateEvents (aggregateId filter : value)
  | QSagaEvents (sagaId filter : value).

(** The query methods of the storage collaborator: the promise each
    returns is a function of the queries made so far and of its
    arguments. *)
Record Reads : Type := {
  storage_getNewId : list query → settled value;
  storage_getEvents : list query → value → settled (list value);
  storage_getAggregateEvents :
    list query → value → value → settled (list value);
  storage_getSagaEvents : list query → value → value → settled (list value)
}.

(** An [async] method that only queries the storage: the promise it
    returns, and the queries made once it has settled. *)
Definition asked (A : Type) : Type := settled A * list query.

(** [EventStream.from(await storage.method(...))]. *)
Definition stream_of (answer : settled (list value)) (q : query)
    (log : list query) : asked (list value) :=
  (match answer with
   | Fulfilled events => Fulfilled (EventStream_from events (fun event => event))
   | Rejected e => Rejected e
   end, log ++ [q]).

(** Retrieve new ID from the storage. *)
Definition getNewId (storage : Reads) (log : list query) : asked value :=
  (storage_getNewId storage log, log ++ [QNewId]).

(** Retrieve all events of specific types. *)
Definition getAllEvents (storage : Reads) (eventTypes : value)
    (log : list query) : asked (list value) :=
  if truthy eventTypes && negb (isArray eventTypes) then
    (Rejected (TypeError "eventTypes, if specified, must be an Array"), log)
  else
    stream_of (storage_getEvents storage log eventTypes)
      (QEvents eventTypes) log.

(** Retrieve all events of specific Aggregate. *)
Definition getAggregateEvents (storage : Reads) (aggregateId filter : value)
    (log : list query) : asked (list value) :=
  if negb (truthy aggregateId) then
    (Rejected (TypeError "aggregateId argument required"), log)
  else
    stream_of (storage_getAggregateEvents storage log aggregateId filter)
      (QAggregateEvents aggregateId filter) log.

(** Retrieve events of specific Saga. *)
Definition getSagaEvents (storage : Reads) (sagaId filter : value)
    (log : list query) : asked (list value) :=
  if negb (truthy sagaId) then
    (Rejected (TypeError "sagaId argument required"), log)
  else if negb (truthy filter) then
    (Rejected (TypeError "filter argument required"), log)
  else if negb (truthy (prop filter "beforeEvent")) then
    (Rejected (TypeError "filter.beforeEvent argument required"), log)
  else if if prop (prop filter "beforeEvent") "sagaVersion" is VUndefined
          then true else false then
    (Rejected (TypeError "filter.beforeEvent.sagaVersion argument required"),
     log)
  else
    stream_of (storage_getSagaEvents storage log sagaId filter)
      (QSagaEvents sagaId filter) log.

(** ** The aggregate runtime: a run of [emit] calls *)

(** [this.emit(type, payload)] for each pair of a list, up to the first
    call that throws. *)
Fixpoint emit_all {St : Type} `{AggregateState St} (this : aggregate St)
    (emissions : list (value * value)) : completion (aggregate St) :=
  match emissions with
  | [] => Normal this
  | (eventType, eventPayload) :: r =>
      this' ← emit this eventType eventPayload; emit_all this' r
  end.

(** The arguments of a call of [emit] that does not throw. *)
Definition emittable (emission : value * value) : Prop :=
  ∃ s, emission.1 = VStr s ∧ s ≠ "".


(** Each entry of the map of named queues has one wrapper, subscribed
    once and to one message type, and there is no other wrapper. *)
Definition one_wrapper_per_key (w : world) : Prop :=
  (∀ key f messageType,
     LQueue key f ∈ listeners_of w messageType →
     namedQueues w !! key = Some f)
  ∧ (∀ key f, namedQueues w !! key = Some f →
       ∃ messageType, ∀ messageType',
         occ (LQueue key f) (listeners_of w messageType')
         = if decide (messageType' = messageType) then 1 else 0).

(** ** Sample data *)

(** A state object that counts the events it has seen. *)
#[global] Instance counter_state : AggregateState nat := {|
  state_mutate n _ := S n;
  state_data n := VObj {["count" := VNum (Z.of_nat n)]}
|}.

Definition created : value :=
  VObj (<["type" := VStr "Created"]> {["aggregateId" := VStr "a1"]}).

Definition renamed : value :=
  VObj (<["type" := VStr "Renamed"]> {["aggregateId" := VStr "a1"]}).

Definition ok_storage : Storage := {| commitEvents _ _ := Fulfilled tt |}.

Definition ok_bus : Bus := {| publish _ _ := (0, Fulfilled tt) |}.

(** A bus that fails to publish the events of type [Renamed]. *)
Definition flaky_bus : Bus := {|
  publish _ event :=
    if has_type "Renamed" event then (0, Rejected (Error "bus is down"))
    else (1, Fulfilled tt)
|}.

Definition plain_emitter : Emitter := {| supportsQueues := false |}.

(** A store on the node [node1] that publishes synchronously. *)
Definition node1 (bus : Bus) : EventStore := {|
  _config := {| hostname := Some "node1"; publishAsync := false |};
  _storage := ok_storage;
  _bus := Some bus;
  _emitter := plain_emitter;
  _validator := validateEvent
|}.

(** A store with the default configuration. *)
Definition anonymous : EventStore := {|
  _config := defaults;
  _storage := ok_storage;
  _bus := Some ok_bus;
  _emitter := plain_emitter;
  _validator := validateEvent
|}.

Definition untyped : value := VObj {["aggregateId" := VStr "a1"]}.

(** A command of the saga [s1], sent by the user [u1]. *)
Definition command : gmap string value :=
  <["sagaId" := VStr "s1"]>
    (<["sagaVersion" := VNum 1]>
       {["context" := VObj {["user" := VStr "u1"]}]}).

(** The stream that [augmentEvents] makes of a list of events. *)
Definition augmented (events : list value)
    (sourceCommand : option (gmap string value)) (this : EventStore)
  : list value :=
  match augmentEvents (VArr events) sourceCommand (hostname (_config this))
  with
  | Normal stream => stream
  | Throw _ => []
  end.

(** A command whose context has a [hostname] key of its own. *)
Definition relayed : gmap string value :=
  {["context" := VObj {["hostname" := VStr "gateway"]}]}.

(** An event that carries a context of its own. *)
Definition annotated : value :=
  VObj (<["type" := VStr "Created"]>
        (<["aggregateId" := VStr "a1"]>
         {["context" := VObj {["user" := VStr "u2"]}]})).

(** An event of a saga without a saga version. *)
Definition unversioned : value :=
  VObj (<["type" := VStr "Created"]> {["sagaId" := VStr "s1"]}).

(** An event as committed on a given node. *)
Definition committed_on (node : string) (messageType : string) : value :=
  VObj (<["type" := VStr messageType]>
        (<["aggregateId" := VStr "a1"]>
         {["context" := VObj {["hostname" := VStr node]}]})).

(** Every user function answers [true]. *)
Definition always : nat → value → value := fun _ _ => VBool true.

(** The world after [once(['A', 'B'], handler)], and after three events
    were then delivered. *)
Definition once_world : world :=
  (once (VArr [VStr "A"; VStr "B"]) (VFun 0) VUndefined empty_world).2.

Definition once_events : list value :=
  [committed_on "node1" "C"; committed_on "node1" "B";
   committed_on "node1" "A"; committed_on "node2" "B"].

Definition once_delivered : world :=
  (deliver_all always (node1 ok_bus) once_events once_world).2.

(** The world after [on('Created', handler, { queueName: 'q1' })], and
    after events committed on two nodes were then delivered. *)
Definition queue_world : world :=
  (on (node1 ok_bus) (VStr "Created") (VFun 7) (Some "q1") empty_world).2.

Definition queue_events : list value :=
  [committed_on "node2" "Created"; committed_on "node1" "Created";
   committed_on "node1" "Renamed"].

Definition queue_delivered : world :=
  (deliver_all always (node1 ok_bus) queue_events queue_world).2.

(** The event that a store with the default configuration commits for
    [created] when it is given no command: it carries no context. *)
Definition committed_anonymously : value :=
  match augmented [created] None anonymous with
  | event :: _ => event
  | [] => VUndefined
  end.

(** The world after an event without a context was delivered between two
    events committed on [node1]. *)
Definition interrupted_events : list value :=
  [committed_on "node1" "Created"; committed_anonymously;
   committed_on "node1" "Created"].

Definition interrupted : completion unit * world :=
  deliver_all always (node1 ok_bus) interrupted_events queue_world.

(** A storage that refuses every commit. *)
Definition full_storage : Storage :=
  {| commitEvents _ _ := Rejected (Error "disk is full") |}.

Definition node_with_full_storage : EventStore := {|
  _config := {| hostname := Some "node1"; publishAsync := false |};
  _storage := full_storage;
  _bus := Some ok_bus;
  _emitter := plain_emitter;
  _validator := validateEvent
|}.

(** A store with the default configuration on a bus that fails. *)
Definition anonymous_flaky : EventStore := {|
  _config := defaults;
  _storage := ok_storage;
  _bus := Some flaky_bus;
  _emitter := plain_emitter;
  _validator := validateEvent
|}.

(** A storage object that has the storage methods and [on]. *)
Definition emitting_storage : StorageObject := {|
  storage_has m := bool_decide (m ∈ "on" :: STORAGE_METHODS);
  storage_calls := ok_storage;
  storage_emitter := plain_emitter
|}.

(** A storage object that has the storage methods only. *)
Definition silent_storage : StorageObject := {|
  storage_has m := bool_decide (m ∈ STORAGE_METHODS);
  storage_calls := ok_storage;
  storage_emitter := plain_emitter
|}.

Definition no_validators : nat → value → completion unit :=
  fun _ _ => Normal tt.

(** The aggregate [a1] rebuilt from two events, with a counter as its
    state. *)
Definition rebuilt_a1 : aggregate nat :=
  foldl mutate (Aggregate (VStr "a1") 0 [] (Some 0)) [created; renamed].

Definition two_emissions : list (value * value) :=
  [(VStr "Renamed", VStr "x"); (VStr "Closed", VUndefined)].

(** The world after a plain subscription to [Created]. *)
Definition plain_world : world :=
  (on anonymous (VStr "Created") (VFun 3) None empty_world).2.

(** The world after a subscription of the queue [a:b] to the type [c]. *)
Definition colliding_world : world :=
  (on (node1 ok_bus) (VStr "c") (VFun 1) (Some "a:b") empty_world).2.

(* ===================================================================== *)
(** * Part II: the properties                                             *)
(* ===================================================================== *)

(** ** The aggregate runtime *)

Section AggregateProperties.

Context {St : Type} `{AggregateState St}.
Variable validateHandlers : aggregate St → completion unit.

Lemma mutate_version (this : aggregate St) (event : value) :
  version (mutate this event) = S (version this).
Proof. reflexivity. Qed.

Lemma mutate_changes (this : aggregate St) (event : value) :
  changes (mutate this event) = changes this.
Proof. reflexivity. Qed.

Lemma mutate_state (this : aggregate St) (event : value) :
  state (mutate this event) = (fun s => state_mutate s event) <$> state this.
Proof. unfold mutate, state; simpl. by destruct (_state this). Qed.

(** Replaying a history: the version grows by the length of the history,
    the state object sees the events from first to last, and nothing else
    changes. *)
Lemma replay_spec (events : list value) (this : aggregate St) :
  version (foldl mutate this events) = version this + length events
  ∧ changes (foldl mutate this events) = changes this
  ∧ id (foldl mutate this events) = id this
  ∧ state (foldl mutate this events)
    = (fun s => foldl state_mutate s events) <$> state this.
Proof.
  revert this. induction events as [|event events IH]; intros this.
  - simpl. split_and!; [lia | done | done | by destruct (state this)].
  - simpl. destruct (IH (mutate this event)) as (Hv & Hc & Hi & Hs).
    rewrite Hv, Hc, Hi, Hs, mutate_version, mutate_changes, mutate_state.
    split_and!; [lia | done | done | by destruct (state this)].
Qed.

(** C4.  Constructing an aggregate with a list of [N] historical events
    yields [version = N] and no changes: every replayed event adds one to
    the version and is passed to [state.mutate], first to last, when there
    is a state object. *)
Theorem constructor_replays_history
    (i : value) (s : option St) (events : list value) :
  truthy i = true →
  validateHandlers (Aggregate i 0 [] s) = Normal tt →
  ∃ this,
    constructor validateHandlers (Some (Options i s (VArr events)))
      = Normal this
    ∧ version this = length events
    ∧ length (changes this) = 0
    ∧ state this = (fun st => foldl state_mutate st events) <$> s
    ∧ id this = i.
Proof.
  intros Hid Hvalid. eexists. split.
  - unfold constructor; simpl. rewrite Hid; simpl. rewrite Hvalid. reflexivity.
  - destruct (replay_spec events (Aggregate i 0 [] s)) as (Hv & Hc & Hi & Hs).
    rewrite Hv, Hc, Hi, Hs. done.
Qed.

(** C5.  [emit(eventType, eventPayload)] with a non-empty string appends
    exactly the event with the fields [aggregateId], [version], [type]
    and [payload], stamped with the version at which it was emitted, and
    leaves the version one higher. *)
Theorem emit_stamps_current_version
    (this : aggregate St) (eventType : string) (eventPayload : value) :
  eventType ≠ "" →
  ∃ this' event,
    emit this (VStr eventType) eventPayload = Normal this'
    ∧ changes this' = changes this ++ [VObj event]
    ∧ event !! "aggregateId" = Some (id this)
    ∧ event !! "version" = Some (VNum (Z.of_nat (version this)))
    ∧ event !! "type" = Some (VStr eventType)
    ∧ event !! "payload" = Some eventPayload
    ∧ dom event = {["aggregateId"; "version"; "type"; "payload"]}
    ∧ version this' = S (version this)
    ∧ id this' = id this
    ∧ state this' = (fun s => state_mutate s (VObj event)) <$> state this.
Proof.
  intros Hne. eexists _, _. split.
  - unfold emit. simpl.
    assert (Hlen : (Z.of_nat (String.length eventType) =? 0)%Z = false).
    { destruct eventType; [done | simpl; lia]. }
    rewrite Hlen. simpl. reflexivity.
  - split_and!; try done.
    all: first [ rewrite !dom_insert_L, dom_empty_L; set_solver
               | simpl; unfold state; by destruct (_state this) ].
Qed.

Lemma emit_keeps_absent_state
    (this this' : aggregate St) (eventType eventPayload : value) :
  emit this eventType eventPayload = Normal this' →
  state this = None → state this' = None.
Proof.
  unfold emit. case_match; [done |]. intros [= <-] Hs.
  unfold state in *; simpl. by rewrite Hs.
Qed.

(** C10.  An aggregate constructed without a state object throws a
    [SyntaxError] when its snapshot is read: [JSON.stringify(undefined)]
    is [undefined], which [JSON.parse] reads as the text [undefined]. *)
Theorem snapshot_without_state_throws
    (i events : value) (this : aggregate St) :
  constructor validateHandlers (Some (Options i None events)) = Normal this →
  ∃ msg, snapshot this = Some (Throw (SyntaxError msg)).
Proof.
  intros Hc.
  assert (Hs : state this = None).
  { unfold constructor in Hc; simpl in Hc.
    repeat case_match; simplify_eq; try done.
    all: destruct (validateHandlers _); simplify_eq/=; try done.
    match goal with
    | |- state (foldl mutate ?a ?l) = _ =>
        destruct (replay_spec l a) as (_ & _ & _ & ->)
    end. done. }
  unfold snapshot. rewrite Hs. eexists. vm_compute. reflexivity.
Qed.

End AggregateProperties.

Lemma constructor_replays_history_witness :
  ∃ this : aggregate nat,
    constructor (fun _ => Normal tt)
      (Some (Options (VStr "a1") (Some 0) (VArr [created; renamed])))
      = Normal this
    ∧ version this = 2
    ∧ length (changes this) = 0
    ∧ state this = Some 2
    ∧ id this = VStr "a1".
Proof.
  exact (constructor_replays_history (fun _ => Normal tt)
           (VStr "a1") (Some 0) [created; renamed] eq_refl eq_refl).
Defined.

(** ** The event store: [commit] *)

Lemma world_eta (w : world) :
  {| namedQueues := namedQueues w; handlers := handlers w;
     closures := closures w; trace := trace w |} = w.
Proof. by destruct w. Qed.

Lemma set_trace_set_trace (tr tr' : list effect) (w : world) :
  set_trace tr (set_trace tr' w) = set_trace tr w.
Proof. reflexivity. Qed.

Lemma forEach_Forall (f : value → completion unit) (l : list value) :
  forEach f l = Normal tt ↔ Forall (fun x => f x = Normal tt) l.
Proof.
  induction l as [|x l IH]; simpl.
  - split; [constructor | done].
  - destruct (f x) as [[]|e] eqn:Hx; simpl.
    + rewrite IH. split; [by constructor | by inversion 1].
    + split; [done | inversion 1; congruence].
Qed.

Lemma forEach_throws (f : value → completion unit) (l : list value) (x : value) :
  x ∈ l → f x ≠ Normal tt → ∃ e, forEach f l = Throw e.
Proof.
  intros Hx Hfx. destruct (forEach f l) as [[]|e] eqn:Hl; [|by eexists].
  apply forEach_Forall in Hl. rewrite Forall_forall in Hl.
  by specialize (Hl x Hx).
Qed.

Lemma publish_each_spec (bus : Bus) (stream : list value) (w : world) :
  publish_each bus stream w
  = (Normal (publish_results bus (trace w) stream),
     set_trace (trace w ++ (Publish <$> stream)) w).
Proof.
  revert w. induction stream as [|event r IH]; intros w; simpl.
  - unfold mret, M_ret, set_trace. by rewrite app_nil_r, world_eta.
  - unfold mbind, M_bind, record; simpl. rewrite IH; simpl.
    unfold mret, M_ret. by rewrite set_trace_set_trace, <- app_assoc.
Qed.

Lemma length_publish_results (bus : Bus) (tr : list effect)
    (stream : list value) :
  length (publish_results bus tr stream) = length stream.
Proof.
  revert tr. induction stream as [|event r IH]; intros tr; simpl; [done|].
  by rewrite IH.
Qed.

(** The accumulator of [first_rejection] is a rejection of the list, or
    the one it started from. *)
Lemma first_rejection_acc (ps : list (nat * settled unit))
    (best : option (nat * error)) :
  (foldl earlier best ps = best
   ∨ ∃ t e, foldl earlier best ps = Some (t, e) ∧ (t, Rejected e) ∈ ps)
  ∧ (is_Some best → is_Some (foldl earlier best ps))
  ∧ ((∃ t e, (t, Rejected e) ∈ ps) → is_Some (foldl earlier best ps)).
Proof.
  revert best.
  induction ps as [|[t [[]|e]] ps IH]; intros best; cbn [foldl].
  - split_and!; [by left | done | intros (? & ? & ?%elem_of_nil); done].
  - change (earlier best (t, Fulfilled ())) with best.
    destruct (IH best) as (Hacc & Hsome & Hrej). split_and!; [| done |].
    + destruct Hacc as [->|(t' & e' & -> & Hin)]; [by left|].
      right. exists t', e'. split; [done | by right].
    + intros (t' & e' & Hin). apply Hrej. exists t', e'.
      by apply elem_of_cons in Hin as [[=]|].
  - set (best' := earlier best (t, Rejected e)).
    assert (Hb : best' = best ∧ is_Some best ∨ best' = Some (t, e)).
    { unfold best', earlier. destruct best as [[t' e']|]; [|by right].
      destruct (t <? t')%nat; [by right | left; eauto]. }
    destruct (IH best') as (Hacc & Hsome & _). split_and!.
    + destruct Hacc as [->|(t' & e' & -> & Hin)].
      * destruct Hb as [[-> _]| ->]; [by left|].
        right. exists t, e. split; [done | by left].
      * right. exists t', e'. split; [done | by right].
    + intros _. apply Hsome. destruct Hb as [[-> ?]| ->]; eauto.
    + intros _. apply Hsome. destruct Hb as [[-> ?]| ->]; eauto.
Qed.

(** [Promise.all] is fulfilled exactly when every promise is, and is
    otherwise rejected with the reason of one of them. *)
Lemma Promise_all_spec (ps : list (nat * settled unit)) :
  (Forall (fun p => p.2 = Fulfilled tt) ps ∧ Promise_all ps = Fulfilled tt)
  ∨ (∃ t e, (t, Rejected e) ∈ ps ∧ Promise_all ps = Rejected e).
Proof.
  unfold Promise_all, first_rejection.
  destruct (first_rejection_acc ps None) as (Hacc & _ & Hrej).
  destruct Hacc as [Hnone|(t & e & Hsome & Hin)].
  - left. rewrite Hnone. split; [|done].
    apply Forall_forall. intros [t [[]|e]] Hin; [done|].
    destruct Hrej as [? Habs]; [eauto|]. simpl in *. congruence.
  - right. exists t, e. simpl in *. by rewrite Hsome.
Qed.

(** The course of [commit] on an array that is not empty. *)
Lemma commit_nonempty (this : EventStore) (events stream : list value)
    (sourceCommand : option (gmap string value)) (w : world) :
  events ≠ [] →
  augmentEvents (VArr events) sourceCommand (hostname (_config this))
    = Normal stream →
  commit this (VArr events) sourceCommand w =
    match forEach (_validator this) stream with
    | Throw e => (Normal (Rejected e), w)
    | Normal _ =>
        let w1 := set_trace (trace w ++ [CommitEvents stream]) w in
        match commitEvents (_storage this) (trace w) stream with
        | Rejected e => (Normal (Rejected e), w1)
        | Fulfilled _ =>
            match _bus this with
            | None => (Normal (Fulfilled (VArr stream)), w1)
            | Some bus =>
                if publishAsync (_config this) then
                  (Normal (Fulfilled (VArr stream)),
                   set_trace (trace w1 ++ [SetImmediate stream]) w1)
                else
                  (Normal
                     match Promise_all (publish_results bus (trace w1) stream)
                     with
                     | Fulfilled _ => Fulfilled (VArr stream)
                     | Rejected e => Rejected e
                     end,
                   set_trace (trace w1 ++ (Publish <$> stream)) w1)
            end
        end
    end.
Proof.
  intros Hne Haug. unfold commit, async.
  change (isArray (VArr events)) with true. cbn [negb].
  assert (Hlen : truthy (prop (VArr events) "length") = true).
  { destruct events; [done | reflexivity]. }
  rewrite Hlen. cbn [negb]. unfold mbind at 1, M_bind at 1, lift at 1.
  rewrite Haug. unfold mbind at 1, M_bind at 1, lift at 1.
  destruct (forEach (_validator this) stream) as [[]|e]; [|done].
  unfold mbind at 1, M_bind at 1. unfold mbind at 1, M_bind at 1.
  unfold record at 1. unfold mbind at 1, M_bind at 1.
  destruct (commitEvents (_storage this) (trace w) stream) as [[]|e];
    [|done].
  cbn [await]. unfold mret at 1, M_ret at 1.
  unfold mbind at 1, M_bind at 1.
  destruct (_bus this) as [bus|]; [|done].
  destruct (publishAsync (_config this)); [done|].
  unfold mbind at 1, M_bind at 1. rewrite publish_each_spec.
  by destruct (Promise_all _) as [[]|e].
Qed.

(** C9.  [commit] called with an empty array resolves to the array it was
    given and calls neither the storage nor the bus: the world is left
    as it was. *)
Theorem commit_empty_is_noop (this : EventStore)
    (sourceCommand : option (gmap string value)) (w : world) :
  commit this (VArr []) sourceCommand w = (Normal (Fulfilled (VArr [])), w).
Proof. reflexivity. Qed.

(** The default validator accepts exactly the events that meet its three
    rules. *)
Lemma validateEvent_spec (event : value) :
  validateEvent event = Normal tt ↔ valid_event event.
Proof.
  unfold validateEvent, valid_event, present. split.
  - destruct event as [| | | | | |l|o]; try done.
    intros Hv. exists o. split; [done|]. simpl in Hv.
    destruct (get o "type") as [| | | |s| | |] eqn:Hty; try done.
    destruct s as [|c s]; [done|]. simpl in Hv.
    destruct (truthy (get o "aggregateId")) eqn:Ha,
      (truthy (get o "sagaId")) eqn:Hsg; simpl in Hv; try done.
    all: split_and!; [| eauto |].
    all: try (exists (String c s); split; [|done]; unfold get in Hty;
              by destruct (o !! "type"); simplify_eq).
    all: intros Hp Hu; first [done | by rewrite Hu in Hv].
  - intros (o & -> & (s & Hty & Hs) & Hid & Hver). simpl.
    assert (get o "type" = VStr s) as -> by (unfold get; by rewrite Hty).
    destruct s as [|c s]; [done|]. simpl.
    destruct (truthy (get o "aggregateId")), (truthy (get o "sagaId"));
      simpl; try by destruct Hid.
    all: specialize (Hver eq_refl); by destruct (get o "sagaVersion").
Qed.

(** C2.  If an augmented event fails validation, [commit] rejects and
    leaves the world as it was: the storage is not asked to commit and
    nothing is published or scheduled.  This holds for any validator the
    store was given, and for the default one whenever an event breaks one
    of its rules: the type must be a non-empty string, [aggregateId] or
    [sagaId] must be present (hold a truthy value), and [sagaVersion] must
    be defined when [sagaId] is present. *)
Theorem commit_rejects_invalid_batch (this : EventStore)
    (events stream : list value)
    (sourceCommand : option (gmap string value)) (w : world) (event : value) :
  augmentEvents (VArr events) sourceCommand (hostname (_config this))
    = Normal stream →
  event ∈ stream →
  _validator this event ≠ Normal tt
  ∨ (_validator this = validateEvent ∧ ¬ valid_event event) →
  ∃ e, commit this (VArr events) sourceCommand w = (Normal (Rejected e), w).
Proof.
  intros Haug Hin Hbad.
  assert (Hne : events ≠ []).
  { intros ->. simpl in Haug. injection Haug as <-. by apply elem_of_nil in Hin. }
  assert (Hthrow : _validator this event ≠ Normal tt).
  { destruct Hbad as [|[Hdef Hnv]]; [done|].
    rewrite Hdef. by rewrite validateEvent_spec. }
  destruct (forEach_throws _ _ _ Hin Hthrow) as [e He].
  exists e. by rewrite (commit_nonempty _ _ _ _ _ Hne Haug), He.
Qed.

Lemma merged_over_union (base top : gmap string value) :
  merged_over (top ∪ base) base top.
Proof.
  intros k. rewrite lookup_union. by destruct (top !! k), (base !! k).
Qed.

Lemma extension_lookup (sourceCommand : gmap string value)
    (hostname : option string) :
  let ext := extension sourceCommand hostname in
  ext !! "sagaId" = Some (get sourceCommand "sagaId")
  ∧ ext !! "sagaVersion" = Some (get sourceCommand "sagaVersion")
  ∧ dom ext = {["sagaId"; "sagaVersion"; "context"]}
  ∧ (truthy (opt_str hostname) = false →
     ext !! "context" = Some (get sourceCommand "context"))
  ∧ (truthy (opt_str hostname) = true →
     ∃ c, ext !! "context" = Some (VObj c)
          ∧ merged_over c {["hostname" := opt_str hostname]}
              (own_props (get sourceCommand "context"))).
Proof.
  intros ext. subst ext. unfold extension. split_and!.
  - by rewrite lookup_insert_eq.
  - rewrite lookup_insert_ne by done. by rewrite lookup_insert_eq.
  - rewrite !dom_insert_L, dom_empty_L. set_solver.
  - intros ->. do 2 (rewrite lookup_insert_ne by done).
    by rewrite lookup_insert_eq.
  - intros ->. eexists. split.
    + do 2 (rewrite lookup_insert_ne by done). by rewrite lookup_insert_eq.
    + cbn [Object_assign foldl]. apply merged_over_union.
Qed.

(** C1.  For a non-empty array of events that pass validation once
    augmented, and collaborators that accept them, [commit] resolves to a
    stream as long as the input and in its order.  Each element is the
    input event merged over the extension: the fields of the event are
    kept, and [sagaId], [sagaVersion] and [context] come from
    [sourceCommand] where the event has none of its own.  When the store
    has a hostname, the context is the caller's context merged over
    [{ hostname }], so a key of the caller's context wins over the
    hostname key. *)
Theorem commit_resolves_to_augmented_stream (this : EventStore)
    (events stream : list value)
    (sourceCommand : option (gmap string value)) (w : world) :
  events ≠ [] →
  augmentEvents (VArr events) sourceCommand (hostname (_config this))
    = Normal stream →
  Forall (fun event => _validator this event = Normal tt) stream →
  commitEvents (_storage this) (trace w) stream = Fulfilled tt →
  (∀ bus, _bus this = Some bus → publishAsync (_config this) = false →
     Forall (fun p => p.2 = Fulfilled tt)
       (publish_results bus (trace w ++ [CommitEvents stream]) stream)) →
  let command := default ∅ sourceCommand in
  let node := opt_str (hostname (_config this)) in
  let ext := extension command (hostname (_config this)) in
  (∃ w', commit this (VArr events) sourceCommand w
         = (Normal (Fulfilled (VArr stream)), w'))
  ∧ length stream = length events
  ∧ (∀ i event, events !! i = Some event →
       ∃ o, stream !! i = Some (VObj o)
            ∧ merged_over o ext (own_props event))
  ∧ ext !! "sagaId" = Some (get command "sagaId")
  ∧ ext !! "sagaVersion" = Some (get command "sagaVersion")
  ∧ dom ext = {["sagaId"; "sagaVersion"; "context"]}
  ∧ (truthy node = false → ext !! "context" = Some (get command "context"))
  ∧ (truthy node = true →
     ∃ c, ext !! "context" = Some (VObj c)
          ∧ merged_over c {["hostname" := node]}
              (own_props (get command "context")))
  ∧ (truthy node = true →
     ∀ i event, events !! i = Some event →
       own_props event !! "context" = None →
       ∃ o c, stream !! i = Some (VObj o)
              ∧ o !! "context" = Some (VObj c)
              ∧ c !! "hostname"
                = Some match own_props (get command "context") !! "hostname"
                       with
                       | Some v => v
                       | None => node
                       end).
Proof.
  intros Hne Haug Hvalid Hstore Hpub command node ext.
  assert (Helem : ∀ i event, events !! i = Some event →
            ∃ o, stream !! i = Some (VObj o)
                 ∧ merged_over o ext (own_props event)).
  { intros i event Hi. simpl in Haug. injection Haug as <-.
    unfold EventStream_from. rewrite list_lookup_fmap, Hi. simpl.
    eexists. split; [done|].
    intros k. rewrite !lookup_union, lookup_empty.
    fold command ext.
    by destruct (own_props event !! k), (ext !! k). }
  pose proof (extension_lookup command (hostname (_config this))) as Hext.
  cbn zeta in Hext. fold ext node in Hext.
  destruct Hext as (Hsid & Hsv & Hdom & Hplain & Hnode).
  split; [|split; [|split; [exact Helem|]]]; cycle 2.
  { split_and!; try done. intros Htruthy i event Hi Hown.
    destruct (Helem i event Hi) as (o & Ho & Hmerge).
    destruct (Hnode Htruthy) as (c & Hc & Hcm).
    exists o, c. split_and!; [done | |].
    - by rewrite (Hmerge "context"), Hown.
    - rewrite (Hcm "hostname").
      destruct (own_props (get command "context") !! "hostname"); [done|].
      apply lookup_singleton_eq. }
  - rewrite (commit_nonempty _ _ _ _ _ Hne Haug).
    apply forEach_Forall in Hvalid. rewrite Hvalid, Hstore. cbn zeta.
    destruct (_bus this) as [bus|] eqn:Hbus; [|by eexists].
    destruct (publishAsync (_config this)) eqn:Hasync; [by eexists|].
    specialize (Hpub bus eq_refl eq_refl).
    destruct (Promise_all_spec
                (publish_results bus (trace w ++ [CommitEvents stream]) stream))
      as [[_ Hall]|(t & e & Hin & _)].
    + cbn [trace set_trace]. rewrite Hall. by eexists.
    + rewrite Forall_forall in Hpub. by specialize (Hpub _ Hin).
  - simpl in Haug. injection Haug as <-.
    unfold EventStream_from. by rewrite length_fmap.
Qed.

(** C3.  With [publishAsync] false and a bus, [commit] publishes every
    event of the committed stream, in order, after the storage has
    committed it, and waits for the publications: it resolves to the
    stream when all of them succeed, and when one fails it rejects with
    the reason of a failed publication.  The storage was called once, to
    commit, and is not called again to undo it. *)
Theorem commit_sync_publish_failure_rejects (this : EventStore) (bus : Bus)
    (events stream : list value)
    (sourceCommand : option (gmap string value)) (w : world) :
  publishAsync (_config this) = false →
  _bus this = Some bus →
  events ≠ [] →
  augmentEvents (VArr events) sourceCommand (hostname (_config this))
    = Normal stream →
  Forall (fun event => _validator this event = Normal tt) stream →
  commitEvents (_storage this) (trace w) stream = Fulfilled tt →
  let published :=
    publish_results bus (trace w ++ [CommitEvents stream]) stream in
  ∃ outcome w',
    commit this (VArr events) sourceCommand w = (Normal outcome, w')
    ∧ trace w' = trace w ++ CommitEvents stream :: (Publish <$> stream)
    ∧ length published = length stream
    ∧ (Forall (fun p => p.2 = Fulfilled tt) published →
       outcome = Fulfilled (VArr stream))
    ∧ (∀ t e, (t, Rejected e) ∈ published →
       ∃ t' e', (t', Rejected e') ∈ published ∧ outcome = Rejected e').
Proof.
  intros Hsync Hbus Hne Haug Hvalid Hstore published.
  rewrite (commit_nonempty _ _ _ _ _ Hne Haug).
  apply forEach_Forall in Hvalid. rewrite Hvalid, Hstore, Hbus, Hsync.
  cbn zeta. cbn [trace set_trace]. fold published.
  eexists _, _. split; [done|]. split; [by rewrite <- app_assoc|].
  split.
  { apply length_publish_results. }
  destruct (Promise_all_spec published) as [[Hall ->]|(t & e & Hin & ->)].
  - split; [done|]. intros t e Hin. rewrite Forall_forall in Hall.
    by specialize (Hall _ Hin).
  - split; [|by eauto]. intros Hall. rewrite Forall_forall in Hall.
    by specialize (Hall _ Hin).
Qed.

(** ** The event store: subscriptions *)

Lemma occ_app {A : Type} `{EqDecision A} (x : A) (l1 l2 : list A) :
  occ x (l1 ++ l2) = occ x l1 + occ x l2.
Proof. induction l1 as [|y l1 IH]; simpl; [done|]. rewrite IH. lia. Qed.

Lemma occ_zero {A : Type} `{EqDecision A} (x : A) (l : list A) :
  occ x l = 0 ↔ x ∉ l.
Proof.
  induction l as [|y l IH]; simpl.
  - split; [intros _; apply not_elem_of_nil | done].
  - rewrite not_elem_of_cons. case_decide; subst.
    + split; [done | by intros [? _]].
    + rewrite <- IH. simpl. split; [by intros ? | by intros [_ ?]].
Qed.

Lemma occ_pos {A : Type} `{EqDecision A} (x : A) (l : list A) :
  0 < occ x l ↔ x ∈ l.
Proof.
  destruct (decide (x ∈ l)) as [Hin|Hnin].
  - split; [done|]. intros _. destruct (occ x l) eqn:Ho; [|lia].
    by apply occ_zero in Ho.
  - split; [|done]. apply occ_zero in Hnin. lia.
Qed.


Lemma occ_remove_first_ne (l l0 : listener) (ls : list listener) :
  l0 ≠ l → occ l0 (remove_first l ls) = occ l0 ls.
Proof.
  intros Hne. induction ls as [|x ls IH]; simpl; [done|].
  case_decide; simpl; subst.
  - by case_decide.
  - by rewrite IH.
Qed.


Lemma occ_iter_remove_first_ne (n : nat) (l l0 : listener)
    (ls : list listener) :
  l0 ≠ l → occ l0 (Nat.iter n (remove_first l) ls) = occ l0 ls.
Proof.
  intros Hne. induction n as [|n IH]; simpl; [done|].
  by rewrite occ_remove_first_ne.
Qed.


Lemma occ_replicate_ne {A : Type} `{EqDecision A} (n : nat) (x y : A) :
  y ≠ x → occ y (replicate n x) = 0.
Proof.
  intros Hne. induction n as [|n IH]; simpl; [done|]. by case_decide.
Qed.

Lemma listeners_of_set_handlers (w : world) (messageType messageType' : string)
    (ls : list listener) :
  listeners_of
    {| namedQueues := namedQueues w;
       handlers := <[messageType := ls]> (handlers w);
       closures := closures w; trace := trace w |} messageType'
  = if decide (messageType = messageType') then ls
    else listeners_of w messageType'.
Proof.
  unfold listeners_of; simpl. case_decide; subst.
  - by rewrite lookup_insert_eq.
  - by rewrite lookup_insert_ne.
Qed.

(** Subscribing a listener to each type of a list. *)
Lemma on_loop (types : list string) (l : listener) (w : world) :
  ∃ w', for_of types (fun messageType => emitter_on messageType l) w
        = (Normal tt, w')
    ∧ namedQueues w' = namedQueues w
    ∧ closures w' = closures w
    ∧ trace w' = trace w
    ∧ ∀ messageType,
        listeners_of w' messageType
        = listeners_of w messageType ++ replicate (occ messageType types) l.
Proof.
  revert w. induction types as [|t types IH]; intros w; simpl.
  - exists w. split_and!; try done. intros mt. by rewrite app_nil_r.
  - unfold mbind, M_bind.
    destruct (emitter_on t l w) as [c w1] eqn:E.
    unfold emitter_on, set_handlers in E. injection E as <- <-.
    match goal with |- context [for_of types _ ?w1] =>
      destruct (IH w1) as (w' & -> & Hq & Hc & Ht & Hl) end.
    exists w'. split_and!; try done. intros mt.
    rewrite Hl, listeners_of_set_handlers. cbn [occ].
    destruct (decide (t = mt)) as [->|Hne]; simpl; [|done].
    by rewrite <- app_assoc.
Qed.

(** Unsubscribing a listener from each type of a list. *)
Lemma off_loop (types : list string) (l : listener) (w : world) :
  ∃ w', for_of types (fun messageType => emitter_off messageType l) w
        = (Normal tt, w')
    ∧ namedQueues w' = namedQueues w
    ∧ closures w' = closures w
    ∧ trace w' = trace w
    ∧ ∀ messageType,
        listeners_of w' messageType
        = Nat.iter (occ messageType types) (remove_first l)
            (listeners_of w messageType).
Proof.
  revert w. induction types as [|t types IH]; intros w; simpl.
  - exists w. by split_and!.
  - unfold mbind, M_bind.
    destruct (emitter_off t l w) as [c w1] eqn:E.
    unfold emitter_off, set_handlers in E. injection E as <- <-.
    match goal with |- context [for_of types _ ?w1] =>
      destruct (IH w1) as (w' & -> & Hq & Hc & Ht & Hl) end.
    exists w'. split_and!; try done. intros mt.
    rewrite Hl, listeners_of_set_handlers. cbn [occ].
    destruct (decide (t = mt)) as [->|Hne]; simpl; [|done].
    by rewrite <- Nat.iter_succ_r.
Qed.

Lemma calls_by_app (l : listener) (tr tr' : list effect) :
  calls_by l (tr ++ tr') = calls_by l tr ++ calls_by l tr'.
Proof.
  induction tr as [|[] tr IH]; simpl; try done.
  case_decide; simpl; by rewrite IH.
Qed.

Lemma resolutions_app (k : nat) (tr tr' : list effect) :
  resolutions k (tr ++ tr') = resolutions k tr ++ resolutions k tr'.
Proof.
  induction tr as [|[] tr IH]; simpl; try done.
  case_decide; simpl; by rewrite IH.
Qed.


Lemma calls_by_handler_call_ne (l : listener) (k : nat)
    (handler event : value) :
  l ≠ LOnce k → calls_by l (handler_call k handler event) = [].
Proof. intros Hne. destruct handler; simpl; try done. by rewrite decide_False. Qed.

Lemma calls_of_app (l : listener) (tr tr' : list effect) :
  calls_of l (tr ++ tr') = calls_of l tr ++ calls_of l tr'.
Proof.
  induction tr as [|[] tr IH]; simpl; try done.
  case_decide; simpl; by rewrite IH.
Qed.

Lemma calls_of_handler_call_ne (l : listener) (k : nat)
    (handler event : value) :
  l ≠ LOnce k → calls_of l (handler_call k handler event) = [].
Proof. intros Hne. destruct handler; simpl; try done. by rewrite decide_False. Qed.

Lemma resolutions_handler_call (k k0 : nat) (handler event : value) :
  resolutions k0 (handler_call k handler event) = [].
Proof. by destruct handler. Qed.

Section ListenerProperties.

Variable call_result : nat → value → value.
Variable this : EventStore.

(** What [filteredHandler] does: nothing when the filter stops the event
    or an event was let through before; otherwise it marks the closure,
    takes the listener off every listed type, calls the handler if there
    is one, and resolves the promise. *)
Lemma filteredHandler_spec (k : nat) (event : value) (w : world) :
  ∃ w', filteredHandler call_result k event w = (Normal tt, w') ∧
    match closures w !! k with
    | None => w' = w
    | Some c =>
        if negb (passes call_result (c_filter c) event) || c_handled c
        then w' = w
        else
          namedQueues w' = namedQueues w
          ∧ closures w' = alter (fired event) k (closures w)
          ∧ (∀ messageType,
               listeners_of w' messageType
               = Nat.iter (occ messageType (c_messageTypes c))
                   (remove_first (LOnce k)) (listeners_of w messageType))
          ∧ trace w' = trace w ++ handler_call k (c_handler c) event
                               ++ [Resolve k event]
    end.
Proof.
  unfold filteredHandler, passes.
  destruct (closures w !! k) as [c|] eqn:Hk; [|by eexists].
  destruct (truthy (c_filter c) && negb (truthy (call _ (c_filter c) event)));
    [by eexists|].
  destruct (c_handled c); [by eexists|]. cbn [negb orb].
  unfold mbind at 1, M_bind at 1.
  unfold set_handled at 1, set_closures at 1.
  unfold mbind at 1, M_bind at 1.
  match goal with |- context [for_of _ _ ?w1] =>
    destruct (off_loop (c_messageTypes c) (LOnce k) w1)
      as (w2 & -> & Hq & Hc & Ht & Hl) end.
  simpl in Hq, Hc, Ht.
  assert (Hl' : ∀ messageType,
             listeners_of w2 messageType
             = Nat.iter (occ messageType (c_messageTypes c))
                 (remove_first (LOnce k)) (listeners_of w messageType)).
  { intros mt. by rewrite Hl. }
  clear Hl. unfold mbind at 1, M_bind at 1.
  assert (Halter : ∀ cl : list closure,
    alter (fun c0 =>
             {| c_messageTypes := c_messageTypes c0;
                c_handler := c_handler c0; c_filter := c_filter c0;
                c_handled := c_handled c0;
                c_result := match c_result c0 with
                            | Some r => Some r
                            | None => Some event
                            end |}) k
      (alter (fun c0 =>
                {| c_messageTypes := c_messageTypes c0;
                   c_handler := c_handler c0; c_filter := c_filter c0;
                   c_handled := true; c_result := c_result c0 |}) k cl)
    = alter (fired event) k cl).
  { intros cl. rewrite list_alter_alter_eq. apply list_alter_ext; [|done].
    intros x _. unfold fired; simpl. by destruct (c_result x). }
  destruct (c_handler c) as [| | | | |h| |]; simpl.
  all: unfold resolve, record, set_closures, mbind, M_bind, mret, M_ret;
    simpl.
  all: eexists; split; [reflexivity|]; simpl.
  all: rewrite ?Hq, ?Hc, ?Ht, ?Halter, ?app_nil_r, <- ?app_assoc.
  all: split_and!; try done.
Qed.

Lemma elem_of_remove_first (l x : listener) (ls : list listener) :
  x ∈ remove_first l ls → x ∈ ls.
Proof.
  induction ls as [|y ls IH]; simpl; [done|].
  case_decide; [by right|].
  rewrite !elem_of_cons. intros [->|Hin]; [by left | right; by apply IH].
Qed.

Lemma elem_of_iter_remove_first (n : nat) (l x : listener)
    (ls : list listener) :
  x ∈ Nat.iter n (remove_first l) ls → x ∈ ls.
Proof.
  induction n as [|n IH]; simpl; [done|].
  intros Hin. apply IH. by apply (elem_of_remove_first l).
Qed.

(** What running a listener leaves untouched, whether it returns or
    throws. *)
Lemma run_listener_frame (l : listener) (event : value) (w w' : world)
    (r : completion unit) :
  run_listener call_result this l event w = (r, w') →
  namedQueues w' = namedQueues w
  ∧ length (closures w') = length (closures w)
  ∧ (∀ l0 messageType, l0 ≠ l →
       occ l0 (listeners_of w' messageType)
       = occ l0 (listeners_of w messageType))
  ∧ (∀ l0, l0 ≠ l → calls_by l0 (trace w') = calls_by l0 (trace w))
  ∧ (∀ k0, l ≠ LOnce k0 →
       closures w' !! k0 = closures w !! k0
       ∧ resolutions k0 (trace w') = resolutions k0 (trace w))
  ∧ (∀ l0 messageType,
       l0 ∈ listeners_of w' messageType → l0 ∈ listeners_of w messageType)
  ∧ match l with
    | LOnce _ => True
    | _ => ∀ messageType,
             listeners_of w' messageType = listeners_of w messageType
    end.
Proof.
  assert (Hrec : ∀ f, record (Call l f event) w = (r, w') →
    namedQueues w' = namedQueues w
    ∧ length (closures w') = length (closures w)
    ∧ (∀ l0 messageType, l0 ≠ l →
         occ l0 (listeners_of w' messageType)
         = occ l0 (listeners_of w messageType))
    ∧ (∀ l0, l0 ≠ l → calls_by l0 (trace w') = calls_by l0 (trace w))
    ∧ (∀ k0, l ≠ LOnce k0 →
         closures w' !! k0 = closures w !! k0
         ∧ resolutions k0 (trace w') = resolutions k0 (trace w))
    ∧ (∀ l0 messageType,
         l0 ∈ listeners_of w' messageType → l0 ∈ listeners_of w messageType)
    ∧ ∀ messageType,
        listeners_of w' messageType = listeners_of w messageType).
  { intros f [= <- <-]. simpl. split_and!; try done.
    - intros l0 Hne. rewrite calls_by_app; simpl.
      rewrite decide_False by done. by rewrite app_nil_r.
    - intros k0 _. split; [done|].
      rewrite resolutions_app; simpl. by rewrite app_nil_r. }
  destruct l as [f q|key f|k]; simpl.
  - apply Hrec.
  - unfold mbind, M_bind, lift.
    destruct (get_prop event "context") as [context|];
      [|intros [= <- <-]; by split_and!].
    destruct (get_prop context "hostname") as [node|];
      [|intros [= <- <-]; by split_and!].
    destruct (other_node this node); [|apply Hrec].
    intros [= <- <-]. by split_and!.
  - destruct (filteredHandler_spec k event w) as (w1 & -> & Hspec).
    intros [= <- <-].
    destruct (closures w !! k) as [c|] eqn:Hk; [|subst; by split_and!].
    destruct (negb _ || _); [subst; by split_and!|].
    destruct Hspec as (Hq & Hc & Hl & Ht). split_and!.
    + done.
    + by rewrite Hc, length_alter.
    + intros l0 mt Hne. by rewrite Hl, occ_iter_remove_first_ne.
    + intros l0 Hne. rewrite Ht, !calls_by_app; simpl.
      by rewrite calls_by_handler_call_ne, app_nil_r.
    + intros k0 Hne. rewrite Hc, Ht. split.
      * apply list_lookup_alter_ne. congruence.
      * rewrite !resolutions_app, resolutions_handler_call; simpl.
        rewrite decide_False by congruence. by rewrite app_nil_r.
    + intros l0 mt. rewrite Hl. apply elem_of_iter_remove_first.
    + done.
Qed.







(** The wrapper of a named queue: it throws when the event has no
    context to read the hostname from, calls the handler when the
    hostname is that of the store, and returns at once otherwise. *)
Lemma queue_wrapper_spec (key : string) (f : nat) (h : string)
    (event : value) (w : world) :
  hostname (_config this) = Some h →
  run_listener call_result this (LQueue key f) event w =
    match context_hostname event with
    | Throw e => (Throw e, w)
    | Normal node =>
        if is_string h node
        then (Normal tt, set_trace (trace w ++ [Call (LQueue key f) f event]) w)
        else (Normal tt, w)
    end.
Proof.
  intros Hh. unfold other_node, context_hostname; simpl.
  unfold mbind, M_bind, lift, other_node. rewrite Hh.
  destruct (get_prop event "context") as [context|]; simpl; [|done].
  destruct (get_prop context "hostname") as [node|]; simpl; [|done].
  by destruct (is_string h node).
Qed.

Lemma from_this_node_spec (h : string) (event : value) :
  hostname (_config this) = Some h →
  from_this_node this event =
    match context_hostname event with
    | Normal node => is_string h node
    | Throw _ => false
    end.
Proof.
  intros Hh. unfold from_this_node. rewrite Hh.
  by destruct (context_hostname event) as [[]|].
Qed.

(** A listener throws only as the wrapper of a named queue, on an event
    that has no context to read the hostname from, and it has done
    nothing then. *)
Lemma run_listener_throws (l : listener) (event : value) (w w' : world)
    (e : error) :
  run_listener call_result this l event w = (Throw e, w') →
  context_hostname event = Throw e ∧ w' = w.
Proof.
  destruct l as [f q|key f|k]; simpl.
  - done.
  - unfold context_hostname, mbind, M_bind, completion_bind, lift.
    destruct (get_prop event "context") as [context|e0];
      [|by intros [= <- <-]].
    destruct (get_prop context "hostname") as [node|e1];
      [|by intros [= <- <-]].
    by destruct (other_node this node).
  - by destruct (filteredHandler_spec k event w) as (w1 & -> & _).
Qed.

(** A listener records calls of its own only. *)
Lemma run_listener_calls_of (l l0 : listener) (event : value)
    (w w' : world) (r : completion unit) :
  run_listener call_result this l event w = (r, w') →
  l0 ≠ l → calls_of l0 (trace w') = calls_of l0 (trace w).
Proof.
  intros Hrun Hne.
  assert (Hrec : ∀ f, record (Call l f event) w = (r, w') →
                      calls_of l0 (trace w') = calls_of l0 (trace w)).
  { intros f [= <- <-]. simpl. rewrite calls_of_app; simpl.
    rewrite decide_False by done. by rewrite app_nil_r. }
  destruct l as [f q|key f|k]; simpl in Hrun.
  - by eapply Hrec.
  - unfold mbind, M_bind, lift in Hrun.
    destruct (get_prop event "context") as [context|];
      [|by injection Hrun as <- <-].
    destruct (get_prop context "hostname") as [node|];
      [|by injection Hrun as <- <-].
    destruct (other_node this node); [by injection Hrun as <- <-|].
    by eapply Hrec.
  - destruct (filteredHandler_spec k event w) as (w1 & Hw1 & Hspec).
    rewrite Hw1 in Hrun. injection Hrun as <- <-.
    destruct (closures w !! k) as [c|]; [|by subst].
    destruct (negb _ || _); [by subst|].
    destruct Hspec as (_ & _ & _ & Ht).
    rewrite Ht, !calls_of_app; simpl.
    by rewrite calls_of_handler_call_ne, app_nil_r.
Qed.

(** One delivery, seen from the wrapper of a named queue, whether the
    delivery comes to its end or is ended by a listener that throws. *)
Lemma queue_loop (key : string) (f : nat) (h : string) (event : value)
    (ls : list listener) :
  hostname (_config this) = Some h →
  ∀ (w w' : world) (r : completion unit),
    for_of ls (fun l => run_listener call_result this l event) w = (r, w') →
    (∀ messageType,
       occ (LQueue key f) (listeners_of w' messageType)
       = occ (LQueue key f) (listeners_of w messageType))
    ∧ match r with
      | Normal _ =>
          calls_of (LQueue key f) (trace w')
          = calls_of (LQueue key f) (trace w)
            ++ (if from_this_node this event
                then replicate (occ (LQueue key f) ls) (f, event) else [])
      | Throw e =>
          context_hostname event = Throw e
          ∧ calls_of (LQueue key f) (trace w')
            = calls_of (LQueue key f) (trace w)
      end.
Proof.
  intros Hh. induction ls as [|l ls IH]; intros w w' r; simpl.
  - intros [= <- <-]. split; [done|].
    destruct (from_this_node this event); by rewrite app_nil_r.
  - unfold mbind, M_bind.
    destruct (run_listener call_result this l event w) as [[[]|e] w1] eqn:Hrun.
    + intros Hrest. destruct (IH _ _ _ Hrest) as [Hocc Hcalls].
      assert (Hstep :
        (∀ messageType,
           occ (LQueue key f) (listeners_of w1 messageType)
           = occ (LQueue key f) (listeners_of w messageType))
        ∧ calls_of (LQueue key f) (trace w1)
          = calls_of (LQueue key f) (trace w)
            ++ (if decide (l = LQueue key f)
                then if from_this_node this event then [(f, event)] else []
                else [])).
      { destruct (decide (l = LQueue key f)) as [->|Hne].
        - rewrite (queue_wrapper_spec _ _ _ _ _ Hh) in Hrun.
          rewrite (from_this_node_spec _ _ Hh).
          destruct (context_hostname event) as [node|]; [|done].
          destruct (is_string h node); injection Hrun as <-.
          + split; [done|]. simpl. rewrite calls_of_app; simpl.
            by rewrite decide_True.
          + split; [done|]. by rewrite app_nil_r.
        - destruct (run_listener_frame _ _ _ _ _ Hrun)
            as (_ & _ & Hocc1 & _).
          split; [intros mt; by apply Hocc1|].
          rewrite (run_listener_calls_of _ _ _ _ _ _ Hrun) by done.
          by rewrite app_nil_r. }
      destruct Hstep as [Hocc1 Hcalls1].
      split; [intros mt; by rewrite Hocc, Hocc1|].
      destruct r as [[]|e].
      * rewrite Hcalls, Hcalls1, <- app_assoc. f_equal.
        destruct (decide (l = LQueue key f)) as [->|Hne];
          by destruct (from_this_node this event).
      * destruct Hcalls as [Hctx Hcalls]. split; [done|].
        rewrite Hcalls, Hcalls1. unfold from_this_node. rewrite Hctx.
        destruct (decide (l = LQueue key f)); by rewrite app_nil_r.
    + intros [= <- <-].
      destruct (run_listener_throws _ _ _ _ _ Hrun) as [Hctx ->].
      by split_and!.
Qed.

(** One delivery by the emitter, seen from the wrapper of a named queue
    that is subscribed once, to one type. *)
Lemma queue_deliver (key : string) (f : nat) (h messageType : string)
    (event : value) (w w' : world) (r : completion unit) :
  hostname (_config this) = Some h →
  (∀ messageType',
     occ (LQueue key f) (listeners_of w messageType')
     = if decide (messageType' = messageType) then 1 else 0) →
  deliver call_result this event w = (r, w') →
  (∀ messageType',
     occ (LQueue key f) (listeners_of w' messageType')
     = occ (LQueue key f) (listeners_of w messageType'))
  ∧ match r with
    | Normal _ =>
        calls_of (LQueue key f) (trace w')
        = calls_of (LQueue key f) (trace w)
          ++ (if has_type messageType event && from_this_node this event
              then [(f, event)] else [])
    | Throw e =>
        context_hostname event = Throw e
        ∧ calls_of (LQueue key f) (trace w')
          = calls_of (LQueue key f) (trace w)
    end.
Proof.
  intros Hh Hocc. unfold deliver, has_type.
  destruct (prop event "type") as [| | | |mt| | |];
    try (intros [= <- <-]; split; [done | by rewrite app_nil_r]).
  intros Hd. destruct (queue_loop key f h event _ Hh _ _ _ Hd) as [Ho Hc].
  split; [done|]. destruct r as [[]|e]; [|done].
  rewrite Hc, Hocc. simpl.
  destruct (decide (mt = messageType)) as [->|Hne].
  - rewrite bool_decide_eq_true_2 by done. simpl.
    by destruct (from_this_node this event).
  - rewrite bool_decide_eq_false_2 by done. simpl.
    by destruct (from_this_node this event).
Qed.

(** A run of deliveries, seen from the wrapper of a named queue that is
    subscribed once, to one type: the run delivers all the events, or
    the events before one that has no context to read the hostname
    from. *)
Lemma queue_deliver_all (key : string) (f : nat) (h messageType : string)
    (events : list value) :
  hostname (_config this) = Some h →
  ∀ (w w' : world) (r : completion unit),
    (∀ messageType',
       occ (LQueue key f) (listeners_of w messageType')
       = if decide (messageType' = messageType) then 1 else 0) →
    deliver_all call_result this events w = (r, w') →
    ∃ delivered,
      match r with
      | Normal _ => delivered = events
      | Throw e =>
          ∃ event rest, events = delivered ++ event :: rest
                        ∧ context_hostname event = Throw e
      end
      ∧ calls_of (LQueue key f) (trace w')
        = calls_of (LQueue key f) (trace w)
          ++ ((fun event => (f, event))
                <$> List.filter (fun event => has_type messageType event
                                              && from_this_node this event)
                      delivered).
Proof.
  intros Hh. induction events as [|event events IH]; intros w w' r Hocc; simpl.
  - intros [= <- <-]. exists []. split; [done | by rewrite app_nil_r].
  - unfold mbind, M_bind.
    destruct (deliver call_result this event w) as [[[]|e] w1] eqn:Hd.
    + destruct (queue_deliver _ _ _ _ _ _ _ _ Hh Hocc Hd) as [Hocc1 Hcalls1].
      intros Hrest.
      destruct (IH w1 w' r) as (delivered & Hdel & Hcalls);
        [by intros mt'; rewrite Hocc1 | done |].
      exists (event :: delivered). split.
      * destruct r as [[]|e]; [by subst|].
        destruct Hdel as (event' & rest & -> & Hctx). by exists event', rest.
      * rewrite Hcalls, Hcalls1, <- app_assoc. f_equal. simpl.
        by destruct (has_type messageType event && from_this_node this event).
    + intros [= <- <-].
      destruct (queue_deliver _ _ _ _ _ _ _ _ Hh Hocc Hd) as [_ [Hctx Hcalls]].
      exists []. split; [by exists event, events|].
      by rewrite Hcalls, app_nil_r.
Qed.

(** A call of [on] with a queue name that returns, on an emitter without
    named queues: the store has a hostname, the key was free, and the
    wrapper is the last listener of the type. *)
Lemma on_named_queue (messageType queueName : string) (f : nat)
    (w0 w1 : world) :
  supportsQueues (_emitter this) = false →
  queueName ≠ "" →
  on this (VStr messageType) (VFun f) (Some queueName) w0 = (Normal tt, w1) →
  let key := queueName +:+ ":" +:+ messageType in
  (∃ h, hostname (_config this) = Some h ∧ h ≠ "")
  ∧ namedQueues w0 !! key = None
  ∧ namedQueues w1 = <[key := f]> (namedQueues w0)
  ∧ closures w1 = closures w0
  ∧ trace w1 = trace w0
  ∧ ∀ messageType',
      listeners_of w1 messageType'
      = if decide (messageType = messageType')
        then listeners_of w0 messageType ++ [LQueue key f]
        else listeners_of w0 messageType'.
Proof.
  intros Hsq Hq. unfold on, emitterSupportsQueues. rewrite Hsq.
  destruct (negb (truthy (prop (VStr messageType) "length"))); [done|].
  assert (Htq : truthy (opt_str (Some queueName)) = true).
  { simpl. by rewrite bool_decide_eq_false_2. }
  rewrite Htq. cbn [negb andb].
  destruct (hostname (_config this)) as [h|] eqn:Hh; [|done].
  destruct (negb (truthy (opt_str (Some h)))) eqn:Hth; [done|].
  cbn [in_template]. case_bool_decide as Hkey; [done|].
  unfold mbind, M_bind, set_namedQueues, emitter_on, set_handlers; simpl.
  intros [= <-]. cbn zeta. split_and!; try done.
  - exists h. split; [done|]. intros ->. done.
  - by apply eq_None_not_Some.
  - intros mt'. apply listeners_of_set_handlers.
Qed.

Lemma for_of_preserves {A : Type} (P : world → Prop) (body : A → M unit)
    (xs : list A) :
  (∀ x w r w', P w → body x w = (r, w') → P w') →
  ∀ w r w', P w → for_of xs body w = (r, w') → P w'.
Proof.
  intros Hbody. induction xs as [|x xs IH]; intros w r w' HP; simpl.
  - by intros [= <- <-].
  - unfold mbind, M_bind.
    destruct (body x w) as [[[]|e] w1] eqn:Hx.
    + apply IH. by eapply Hbody.
    + intros [= <- <-]. by eapply Hbody.
Qed.

Lemma deliver_frame (event : value) (w w' : world) (r : completion unit) :
  deliver call_result this event w = (r, w') → delivery_frame w w'.
Proof.
  assert (Hrefl : delivery_frame w w) by by split_and!.
  unfold deliver. destruct (prop event "type");
    try (intros [= <- <-]; done).
  apply for_of_preserves; [|done].
  intros l w1 r1 w2 (Hq & Hc & Hin & Hocc) Hrun.
  destruct (run_listener_frame _ _ _ _ _ Hrun)
    as (Hq1 & Hc1 & Hocc1 & _ & _ & Hin1 & Hsame).
  split_and!.
  - by rewrite Hq1.
  - by rewrite Hc1.
  - intros l0 mt Hl0. by apply Hin, Hin1.
  - intros key f mt. rewrite <- Hocc.
    destruct (decide (LQueue key f = l)) as [<-|Hne].
    + by rewrite Hsame.
    + by apply Hocc1.
Qed.

Lemma commit_frame (events : value)
    (sourceCommand : option (gmap string value)) (w w' : world)
    (r : completion (settled value)) :
  commit this events sourceCommand w = (r, w') →
  namedQueues w' = namedQueues w ∧ handlers w' = handlers w
  ∧ closures w' = closures w.
Proof.
  destruct events as [| | | | | |events|];
    try (intros [= <- <-]; done).
  destruct events as [|event events]; [by intros [= <- <-]|].
  rewrite (commit_nonempty this (event :: events) _ sourceCommand w
             ltac:(done) eq_refl).
  destruct (forEach _ _) as [[]|e]; [|by intros [= <- <-]].
  cbn zeta. destruct (commitEvents _ _ _) as [[]|e]; [|by intros [= <- <-]].
  destruct (_bus this) as [bus|]; [|by intros [= <- <-]].
  destruct (publishAsync _); by intros [= <- <-].
Qed.

(** A call of [on] throws and changes nothing, or subscribes one
    listener: the handler as it is, or the wrapper of a named queue
    whose key was free. *)
Lemma on_cases (messageType handler : value) (queueName : option string)
    (w w' : world) (r : completion unit) :
  on this messageType handler queueName w = (r, w') →
  (w' = w ∧ ∃ e, r = Throw e)
  ∨ ∃ mt l,
      closures w' = closures w
      ∧ (∀ messageType',
           listeners_of w' messageType'
           = if decide (mt = messageType') then listeners_of w mt ++ [l]
             else listeners_of w messageType')
      ∧ match l with
        | LQueue key f =>
            namedQueues w !! key = None
            ∧ namedQueues w' = <[key := f]> (namedQueues w)
        | _ => namedQueues w' = namedQueues w
        end
      ∧ (∀ k, l ≠ LOnce k).
Proof.
  unfold on.
  destruct messageType as [| | | |mt| | |];
    try (intros [= <- <-]; left; eauto).
  destruct (negb _); [intros [= <- <-]; left; eauto|].
  destruct handler as [| | | | |f| |];
    try (intros [= <- <-]; left; eauto).
  destruct (truthy (opt_str queueName) && _).
  - destruct (negb _); [intros [= <- <-]; left; eauto|].
    case_bool_decide as Hkey; [intros [= <- <-]; left; eauto|].
    unfold mbind, M_bind, set_namedQueues, emitter_on, set_handlers; simpl.
    intros [= <- <-]. right. eexists mt, (LQueue _ f). simpl.
    split_and!; try done.
    + intros mt'. apply listeners_of_set_handlers.
    + by apply eq_None_not_Some.
  - unfold emitter_on, set_handlers. intros [= <- <-]. right.
    exists mt, (LUser f queueName). simpl. split_and!; try done.
    intros mt'. apply listeners_of_set_handlers.
Qed.

(** A call of [once] throws and changes nothing, or makes one closure
    and subscribes its listener. *)
Lemma once_cases (messageTypes handler filter : value) (w w' : world)
    (r : completion nat) :
  once messageTypes handler filter w = (r, w') →
  w' = w
  ∨ ∃ c types,
      closures w' = closures w ++ [c]
      ∧ namedQueues w' = namedQueues w
      ∧ ∀ messageType,
          listeners_of w' messageType
          = listeners_of w messageType
            ++ replicate (occ messageType types)
                 (LOnce (length (closures w))).
Proof.
  unfold once.
  destruct (negb _); [intros [= <- <-]; by left|].
  destruct (truthy handler && _); [intros [= <- <-]; by left|].
  destruct (truthy filter && _); [intros [= <- <-]; by left|].
  unfold mbind at 1, M_bind at 1, set_closures at 1.
  unfold mbind at 1, M_bind at 1.
  match goal with |- context [for_of ?ts ?f ?w1] =>
    destruct (on_loop ts (LOnce (length (closures w))) w1)
      as (w2 & -> & Hq & Hc & Ht & Hl) end.
  simpl in Hq, Hc, Ht. intros [= <- <-]. right. eexists _, _.
  split_and!; [done | done |]. intros mt. rewrite Hl. done.
Qed.

(** Every step keeps the named queues, the closures and the wrappers. *)
Lemma step_extends (w w' : world) :
  step call_result this w w' → extends w w'.
Proof.
  assert (Hrefl : ∀ w0, extends w0 w0) by (intros w0; by split_and!).
  intros [events src w0 r w1 Hc|mt h q w0 r w1 Hon
         |mts h flt w0 r w1 Honce|event w0 r w1 Hd].
  - destruct (commit_frame _ _ _ _ _ Hc) as (Hq & Hh & Hcl).
    unfold extends, listeners_of. rewrite Hq, Hh, Hcl. by split_and!.
  - destruct (on_cases _ _ _ _ _ _ Hon)
      as [[-> _]|(mt' & l & Hcl & Hl & Hq & _)]; [done|].
    split_and!.
    + intros key f Hkey. destruct l as [| key' f' |]; try by rewrite Hq.
      destruct Hq as [Hfree ->].
      rewrite lookup_insert_ne; [done|]. intros <-. congruence.
    + by rewrite Hcl.
    + intros key f mt'' Hin. rewrite Hl. case_decide; subst; [|done].
      apply elem_of_app. by left.
  - destruct (once_cases _ _ _ _ _ _ Honce)
      as [->|(c & types & Hcl & Hq & Hl)]; [done|].
    split_and!.
    + by rewrite Hq.
    + rewrite Hcl, length_app. lia.
    + intros key f mt Hin. rewrite Hl. apply elem_of_app. by left.
  - destruct (deliver_frame _ _ _ _ Hd) as (Hq & Hcl & _ & Hocc).
    split_and!.
    + by rewrite Hq.
    + by rewrite Hcl.
    + intros key f mt Hin. apply occ_pos. rewrite Hocc. by apply occ_pos.
Qed.

Lemma rtc_step_extends (w w' : world) :
  rtc (step call_result this) w w' → extends w w'.
Proof.
  induction 1 as [w|w w1 w2 Hstep _ IH]; [by split_and!|].
  destruct (step_extends _ _ Hstep) as (Hq & Hc & Hl).
  destruct IH as (Hq' & Hc' & Hl'). split_and!.
  - intros key f Hkey. by apply Hq', Hq.
  - lia.
  - intros key f mt Hin. by apply Hl', Hl.
Qed.

(** Every step keeps the world well formed: the worlds that the program
    reaches from the empty one are. *)
Lemma step_wf (w w' : world) :
  wf w → step call_result this w w' → wf w'.
Proof.
  intros Hwf Hstep. revert Hwf.
  destruct Hstep as [events src w0 r w1 Hc|mt h q w0 r w1 Hon
                    |mts h flt w0 r w1 Honce|event w0 r w1 Hd]; intros Hwf.
  - destruct (commit_frame _ _ _ _ _ Hc) as (Hq & Hh & Hcl).
    intros mt l Hin. unfold listeners_of in Hin. rewrite Hh in Hin.
    specialize (Hwf mt l Hin). by rewrite Hq, Hcl.
  - destruct (on_cases _ _ _ _ _ _ Hon)
      as [[-> _]|(mt' & l & Hcl & Hl & Hq & Hnot)]; [done|].
    assert (Hold : ∀ mt'' l0, l0 ∈ listeners_of w0 mt'' →
              match l0 with
              | LOnce k => k < length (closures w1)
              | LQueue key _ => is_Some (namedQueues w1 !! key)
              | LUser _ _ => True
              end).
    { intros mt'' l0 Hin. specialize (Hwf _ _ Hin).
      destruct l0 as [|key0 f0|k0]; [done| |by rewrite Hcl].
      destruct l as [|key f|]; try by rewrite Hq.
      destruct Hq as [_ ->]. rewrite lookup_insert. case_decide; eauto. }
    intros mt'' l0. rewrite Hl. case_decide; subst; [|apply Hold].
    rewrite elem_of_app, list_elem_of_singleton.
    intros [Hin| ->]; [by eapply Hold|].
    destruct l as [|key f|k]; [done| |by destruct (Hnot k)].
    destruct Hq as [_ ->]. rewrite lookup_insert_eq. eauto.
  - destruct (once_cases _ _ _ _ _ _ Honce)
      as [->|(c & types & Hcl & Hq & Hl)]; [done|].
    intros mt l0. rewrite Hl, elem_of_app.
    intros [Hin|Hin].
    + specialize (Hwf _ _ Hin). destruct l0; [done|by rewrite Hq|].
      rewrite Hcl, length_app. simpl. lia.
    + apply elem_of_replicate in Hin as [-> _].
      rewrite Hcl, length_app. simpl. lia.
  - destruct (deliver_frame _ _ _ _ Hd) as (Hq & Hcl & Hin & _).
    intros mt l0 Hl0. specialize (Hwf _ _ (Hin _ _ Hl0)).
    destruct l0; [done | by rewrite Hq | by rewrite Hcl].
Qed.

Lemma reachable_wf (w : world) :
  rtc (step call_result this) empty_world w → wf w.
Proof.
  intros Hrtc. assert (Hwf : wf empty_world).
  { intros mt l Hin. by apply elem_of_nil in Hin. }
  revert Hwf. induction Hrtc as [|w w1 w2 Hstep _ IH]; [done|].
  intros Hwf. by apply IH, (step_wf w).
Qed.

Lemma deliver_all_steps (events : list value) (w w' : world)
    (r : completion unit) :
  deliver_all call_result this events w = (r, w') →
  rtc (step call_result this) w w'.
Proof.
  revert w. induction events as [|event events IH]; intros w; simpl.
  - intros [= <- <-]. apply rtc_refl.
  - unfold mbind, M_bind.
    destruct (deliver call_result this event w) as [[[]|e] w1] eqn:Hd.
    + intros Hrest. eapply rtc_l; [by eapply step_deliver | by apply IH].
    + intros [= <- <-]. eapply rtc_once, step_deliver, Hd.
Qed.

(** An event of a type that has no context, or [null] for one, has no
    [context.hostname]: reading it throws a [TypeError]. *)
Lemma context_hostname_without_context (messageType : string)
    (event : value) :
  has_type messageType event = true →
  prop event "context" = VUndefined ∨ prop event "context" = VNull →
  ∃ msg, context_hostname event = Throw (TypeError msg).
Proof.
  unfold has_type, context_hostname, mbind, completion_bind.
  intros Hty Hctx.
  assert (Hget : get_prop event "context" = Normal (prop event "context")).
  { by destruct event. }
  rewrite Hget. destruct Hctx as [-> | ->]; by eexists.
Qed.

(** A delivery to listeners that include the wrapper of a named queue,
    of an event that has no context to read the hostname from: it
    throws. *)
Lemma delivery_stops_at_wrapper (key : string) (f : nat) (h : string)
    (event : value) (e : error) (ls : list listener) :
  hostname (_config this) = Some h →
  context_hostname event = Throw e →
  LQueue key f ∈ ls →
  ∀ w, ∃ w',
    for_of ls (fun l => run_listener call_result this l event) w
    = (Throw e, w').
Proof.
  intros Hh Hctx. induction ls as [|l ls IH]; intros Hin w.
  - by apply elem_of_nil in Hin.
  - simpl. unfold mbind, M_bind.
    destruct (run_listener call_result this l event w) as [[[]|e'] w1] eqn:Hrun.
    + apply elem_of_cons in Hin as [<-|Hin]; [|by apply IH].
      rewrite (queue_wrapper_spec _ _ _ _ _ Hh), Hctx in Hrun. done.
    + destruct (run_listener_throws _ _ _ _ _ Hrun) as [Hctx' ->].
      exists w. congruence.
Qed.

(** C7.  The wrapper that [on] makes for a named queue reads
    [event.context.hostname] without a guard.  Once the wrapper is
    subscribed, whatever the store does next, the delivery of an event of
    the type that has no context (or [null] for one) does not skip the
    event silently: the event is not from this node, the handler is not
    called, and the delivery throws a [TypeError]. *)
Theorem named_queue_wrapper_throws_without_context
    (messageType queueName : string) (f : nat) (event : value)
    (w0 w1 w : world) :
  supportsQueues (_emitter this) = false →
  queueName ≠ "" →
  on this (VStr messageType) (VFun f) (Some queueName) w0 = (Normal tt, w1) →
  rtc (step call_result this) w1 w →
  has_type messageType event = true →
  prop event "context" = VUndefined ∨ prop event "context" = VNull →
  let wrapper := LQueue (queueName +:+ ":" +:+ messageType) f in
  from_this_node this event = false
  ∧ ∃ msg w',
      deliver call_result this event w = (Throw (TypeError msg), w')
      ∧ run_listener call_result this wrapper event w'
        = (Throw (TypeError msg), w')
      ∧ calls_of wrapper (trace w') = calls_of wrapper (trace w).
Proof.
  intros Hsq Hq Hon Hrtc Hty Hnone wrapper.
  destruct (on_named_queue _ _ _ _ _ Hsq Hq Hon)
    as ((h & Hh & _) & _ & _ & _ & _ & Hl).
  destruct (context_hostname_without_context _ _ Hty Hnone) as [msg Hctx].
  split; [unfold from_this_node; by rewrite Hctx|].
  destruct (rtc_step_extends _ _ Hrtc) as (_ & _ & Hwrap).
  assert (Hin : wrapper ∈ listeners_of w messageType).
  { apply Hwrap. rewrite Hl, decide_True by done.
    apply elem_of_app. right. by left. }
  destruct (delivery_stops_at_wrapper _ _ _ _ _ _ Hh Hctx Hin w) as [w' Hd].
  exists msg, w'.
  assert (Hdeliver :
    deliver call_result this event w = (Throw (TypeError msg), w')).
  { unfold deliver. unfold has_type in Hty.
    destruct (prop event "type") as [| | | |mt| | |]; try done.
    simpl in Hty. apply bool_decide_eq_true in Hty. by subst. }
  split_and!; [done | |].
  - unfold wrapper. by rewrite (queue_wrapper_spec _ _ _ _ _ Hh), Hctx.
  - by destruct (queue_loop (queueName +:+ ":" +:+ messageType) f h event _
                   Hh _ _ _ Hd) as [_ [_ Hcalls]].
Qed.

(** C8.  On an emitter without named queues, once a handler is
    subscribed for a queue name and a message type, every later call of
    [on] with that queue name and message type throws and changes
    nothing, whatever handler it is given and whatever the store did in
    between: the first handler stays in the map of named queues and its
    wrapper stays subscribed.  In a store without a hostname, every call
    of [on] with a queue name throws and changes nothing. *)
Theorem named_queue_registration_is_exclusive
    (messageType queueName : string) (f : nat) (w0 w1 : world) :
  supportsQueues (_emitter this) = false →
  queueName ≠ "" →
  let key := queueName +:+ ":" +:+ messageType in
  (on this (VStr messageType) (VFun f) (Some queueName) w0 = (Normal tt, w1) →
   ∀ w2, rtc (step call_result this) w1 w2 →
     namedQueues w2 !! key = Some f
     ∧ LQueue key f ∈ listeners_of w2 messageType
     ∧ ∀ handler, ∃ e,
         on this (VStr messageType) handler (Some queueName) w2
           = (Throw e, w2)
         ∧ ∀ f', handler = VFun f' →
             e = Error ("'" +:+ key +:+
                        "' handler already set up on this node"))
  ∧ (truthy (opt_str (hostname (_config this))) = false →
     ∀ messageType' handler w, ∃ e,
       on this messageType' handler (Some queueName) w = (Throw e, w)).
Proof.
  intros Hsq Hq key.
  assert (Htq : truthy (opt_str (Some queueName)) = true).
  { simpl. by rewrite bool_decide_eq_false_2. }
  split.
  - intros Hon w2 Hrtc.
    destruct (on_named_queue _ _ _ _ _ Hsq Hq Hon)
      as ((h & Hh & Hhne) & Hfree & Hnq & Hc & Ht & Hl).
    fold key in Hfree, Hnq, Hl.
    destruct (rtc_step_extends _ _ Hrtc) as (Hkeep & _ & Hwrap).
    assert (Hkey : namedQueues w2 !! key = Some f).
    { apply Hkeep. rewrite Hnq. apply lookup_insert_eq. }
    split_and!; [done | |].
    + apply Hwrap. rewrite Hl, decide_True by done.
      apply elem_of_app. right. by left.
    + intros handler. revert Hon. unfold on, emitterSupportsQueues.
      rewrite Hsq, Htq, Hh.
      destruct (negb (truthy (prop (VStr messageType) "length"))); [done|].
      destruct (negb (truthy (opt_str (Some h)))); [done|].
      intros _. cbn [negb andb in_template].
      destruct handler as [| | | | |f'| |];
        try (eexists; split; [reflexivity | done]).
      fold key. rewrite bool_decide_eq_true_2 by (rewrite Hkey; eauto).
      eexists. split; [reflexivity|]. done.
  - intros Hnh mt' handler w. unfold on, emitterSupportsQueues.
    rewrite Hsq, Htq, Hnh. cbn [negb andb].
    destruct mt' as [| | | |mt| | |]; try by eexists.
    destruct (negb (truthy (prop (VStr mt) "length"))); [by eexists|].
    destruct handler; by eexists.
Qed.

End ListenerProperties.

Lemma wf_empty : wf empty_world.
Proof. intros mt l Hin. by apply elem_of_nil in Hin. Qed.

(** ** The properties at sample data *)

Example augmented_created :
  (fun event =>
     (prop event "type", prop event "aggregateId", prop event "sagaId",
      prop event "sagaVersion", prop (prop event "context") "hostname",
      prop (prop event "context") "user"))
    <$> augmented [created] (Some command) (node1 ok_bus)
  = [(VStr "Created", VStr "a1", VStr "s1", VNum 1, VStr "node1",
      VStr "u1")].
Proof. vm_compute. reflexivity. Qed.

Example augmented_without_command :
  (fun event =>
     (prop event "sagaId", prop event "sagaVersion", prop event "context"))
    <$> augmented [created] None anonymous
  = [(VUndefined, VUndefined, VUndefined)].
Proof. vm_compute. reflexivity. Qed.

Example augmented_relayed :
  (fun event => prop (prop event "context") "hostname")
    <$> augmented [created] (Some relayed) (node1 ok_bus)
  = [VStr "gateway"].
Proof. vm_compute. reflexivity. Qed.

Example augmented_annotated :
  (fun event =>
     (prop (prop event "context") "user",
      prop (prop event "context") "hostname"))
    <$> augmented [annotated] (Some command) (node1 ok_bus)
  = [(VStr "u2", VUndefined)].
Proof. vm_compute. reflexivity. Qed.

Example validateEvent_untyped :
  validateEvent untyped
  = Throw (TypeError "event.type must be a non-empty String").
Proof. vm_compute. reflexivity. Qed.

Example validateEvent_unversioned :
  validateEvent unversioned
  = Throw (TypeError
             "event.sagaVersion is required, when event.sagaId is defined").
Proof. vm_compute. reflexivity. Qed.

Example Promise_all_earliest :
  Promise_all [(2, Rejected (Error "late")); (0, Fulfilled tt);
               (1, Rejected (Error "early"))]
  = Rejected (Error "early").
Proof. reflexivity. Qed.

Example commit_flaky :
  (commit (node1 flaky_bus) (VArr [created; renamed]) None empty_world).1
  = Normal (Rejected (Error "bus is down")).
Proof. vm_compute. reflexivity. Qed.

Example commit_default_is_async :
  collaborator_calls
    (trace (commit anonymous (VArr [created]) None empty_world).2)
  = [CommitEvents (augmented [created] None anonymous);
     SetImmediate (augmented [created] None anonymous)].
Proof. vm_compute. reflexivity. Qed.

Example snapshot_of_counter :
  snapshot (Aggregate (VStr "a1") 2 [] (Some 2))
  = Some (Normal (VObj {["count" := VNum 2]})).
Proof. vm_compute. reflexivity. Qed.

Example queue_wrapper_without_context :
  (run_listener always (node1 ok_bus) (LQueue "q1:Created" 7) created
     queue_world).1
  = Throw (TypeError "Cannot read property 'hostname' of undefined").
Proof. vm_compute. reflexivity. Qed.

Example queue_run_interrupted :
  interrupted.1
  = Throw (TypeError "Cannot read property 'hostname' of undefined")
  ∧ calls_of (LQueue "q1:Created" 7) (trace interrupted.2)
    = [(7, committed_on "node1" "Created")].
Proof. vm_compute. split; reflexivity. Qed.

Example once_unsubscribed :
  handlers once_delivered = <["A" := []]> {["B" := []]}.
Proof. vm_compute. reflexivity. Qed.

Lemma emit_stamps_current_version_witness :
  ∃ this' : aggregate nat,
    emit (Aggregate (VStr "a1") 2 [] (Some 2)) (VStr "Renamed") (VStr "n")
      = Normal this'
    ∧ version this' = 3
    ∧ length (changes this') = 1.
Proof.
  destruct (emit_stamps_current_version
              (Aggregate (VStr "a1") 2 [] (Some 2)) "Renamed" (VStr "n"))
    as (this' & event & Hemit & Hchanges & _ & _ & _ & _ & _ & Hv & _).
  - discriminate.
  - exists this'. rewrite Hchanges, Hv. split_and!; [exact Hemit | | ];
      reflexivity.
Defined.

Lemma snapshot_without_state_throws_witness :
  ∃ msg,
    snapshot (Aggregate (VStr "a1") 1 [] None : aggregate nat)
    = Some (Throw (SyntaxError msg)).
Proof.
  exact (snapshot_without_state_throws (fun _ => Normal tt)
           (VStr "a1") (VArr [created]) _ eq_refl).
Defined.

Lemma commit_resolves_to_augmented_stream_witness :
  ∃ stream w',
    augmentEvents (VArr [created; renamed]) (Some command) (Some "node1")
      = Normal stream
    ∧ commit (node1 ok_bus) (VArr [created; renamed]) (Some command)
        empty_world
      = (Normal (Fulfilled (VArr stream)), w')
    ∧ length stream = 2.
Proof.
  destruct (commit_resolves_to_augmented_stream (node1 ok_bus)
              [created; renamed]
              (augmented [created; renamed] (Some command) (node1 ok_bus))
              (Some command) empty_world)
    as ((w' & Hcommit) & Hlen & _).
  - discriminate.
  - reflexivity.
  - apply forEach_Forall. vm_compute. reflexivity.
  - reflexivity.
  - intros bus [= <-] _. vm_compute. repeat constructor.
  - eexists _, w'. split_and!; [reflexivity | exact Hcommit | exact Hlen].
Defined.

Lemma commit_rejects_invalid_batch_witness :
  ∃ e,
    commit (node1 ok_bus) (VArr [created; untyped]) None empty_world
    = (Normal (Rejected e), empty_world).
Proof.
  refine (commit_rejects_invalid_batch (node1 ok_bus) [created; untyped]
            (augmented [created; untyped] None (node1 ok_bus))
            None empty_world _ eq_refl _ _).
  - simpl. right. left.
  - left. vm_compute. discriminate.
Defined.

Lemma commit_sync_publish_failure_rejects_witness :
  ∃ outcome w',
    commit (node1 flaky_bus) (VArr [created; renamed]) None empty_world
      = (Normal outcome, w')
    ∧ length (trace w') = 3.
Proof.
  destruct (commit_sync_publish_failure_rejects (node1 flaky_bus) flaky_bus
              [created; renamed]
              (augmented [created; renamed] None (node1 flaky_bus))
              None empty_world)
    as (outcome & w' & Hcommit & Htrace & _).
  - reflexivity.
  - reflexivity.
  - discriminate.
  - reflexivity.
  - apply forEach_Forall. vm_compute. reflexivity.
  - reflexivity.
  - exists outcome, w'. split; [exact Hcommit|]. rewrite Htrace. reflexivity.
Defined.


Lemma named_queue_wrapper_throws_without_context_witness :
  (commit anonymous (VArr [created]) None empty_world).1
  = Normal (Fulfilled (VArr [committed_anonymously]))
  ∧ ∃ msg w',
      deliver always (node1 ok_bus) committed_anonymously queue_delivered
      = (Throw (TypeError msg), w')
      ∧ calls_of (LQueue "q1:Created" 7) (trace w')
        = calls_of (LQueue "q1:Created" 7) (trace queue_delivered).
Proof.
  split; [vm_compute; reflexivity|].
  destruct (named_queue_wrapper_throws_without_context always (node1 ok_bus)
              "Created" "q1" 7 committed_anonymously
              empty_world queue_world queue_delivered)
    as (_ & msg & w' & Hd & _ & Hcalls).
  - reflexivity.
  - discriminate.
  - vm_compute. reflexivity.
  - apply (deliver_all_steps always (node1 ok_bus) queue_events
             queue_world queue_delivered (Normal tt)).
    vm_compute. reflexivity.
  - vm_compute. reflexivity.
  - left. vm_compute. reflexivity.
  - exists msg, w'. split; [exact Hd | exact Hcalls].
Defined.

Lemma named_queue_registration_is_exclusive_witness :
  (∃ e, on (node1 ok_bus) (VStr "Created") (VFun 8) (Some "q1")
          queue_delivered
        = (Throw e, queue_delivered))
  ∧ (∃ e, on anonymous (VStr "Created") (VFun 7) (Some "q1") empty_world
          = (Throw e, empty_world)).
Proof.
  split.
  - destruct (named_queue_registration_is_exclusive always (node1 ok_bus)
                "Created" "q1" 7 empty_world queue_world) as [Hfirst _].
    + reflexivity.
    + discriminate.
    + destruct (Hfirst ltac:(vm_compute; reflexivity) queue_delivered)
        as (_ & _ & Hsecond).
      * apply (deliver_all_steps always (node1 ok_bus) queue_events
                 queue_world queue_delivered (Normal tt)).
        vm_compute. reflexivity.
      * destruct (Hsecond (VFun 8)) as (e & He & _). exists e. exact He.
  - destruct (named_queue_registration_is_exclusive always anonymous
                "Created" "q1" 7 empty_world empty_world) as [_ Hnone].
    + reflexivity.
    + discriminate.
    + apply Hnone. reflexivity.
Defined.

(* ===================================================================== *)
(** * Part III: further properties of the code                            *)
(* ===================================================================== *)

(** ** The aggregate runtime *)

Section AggregateRuns.

Context {St : Type} `{AggregateState St}.
Variable validateHandlers : aggregate St → completion unit.

(** [emit] with a non-empty string: the aggregate it leaves. *)
Lemma emit_nonempty (this : aggregate St) (s : string) (payload : value) :
  s ≠ "" →
  ∃ event,
    emit this (VStr s) payload
    = Normal (mutate {| _id := _id this; _version := _version this;
                        _changes := _changes this ++ [event];
                        _state := _state this |} event)
    ∧ prop event "aggregateId" = id this
    ∧ prop event "version" = VNum (Z.of_nat (version this))
    ∧ prop event "type" = VStr s
    ∧ prop event "payload" = payload.
Proof.
  intros Hs. eexists. split.
  - unfold emit. simpl.
    assert (Hlen : (Z.of_nat (String.length s) =? 0)%Z = false).
    { destruct s; [done | simpl; lia]. }
    rewrite Hlen. simpl. reflexivity.
  - by split_and!.
Qed.

(** [emit] returns only for a non-empty string. *)
Lemma emit_returns (this this' : aggregate St) (eventType payload : value) :
  emit this eventType payload = Normal this' →
  ∃ s, eventType = VStr s ∧ s ≠ "".
Proof.
  unfold emit. destruct eventType as [| | | |s| | |]; try done.
  destruct s; [done|]. intros _. by eexists.
Qed.

(** A run of [emit] calls that returns has, for the version and the
    state, the effect of replaying the events it appended. *)
Lemma emit_all_replays (emissions : list (value * value)) :
  ∀ this this' : aggregate St,
    emit_all this emissions = Normal this' →
    ∃ new,
      changes this' = changes this ++ new
      ∧ length new = length emissions
      ∧ version this' = version (foldl mutate this new)
      ∧ state this' = state (foldl mutate this new)
      ∧ id this' = id this.
Proof.
  induction emissions as [|[ty payload] emissions IH]; intros this this'.
  - intros [= <-]. exists []. by rewrite app_nil_r.
  - cbn [emit_all]. unfold mbind, completion_bind.
    destruct (emit this ty payload) as [this1|] eqn:Hemit; [|done].
    intros Hrest. destruct (emit_returns _ _ _ _ Hemit) as (s & -> & Hs).
    destruct (emit_nonempty this s payload Hs) as (event & Hev & _).
    rewrite Hev in Hemit. injection Hemit as <-.
    destruct (IH _ _ Hrest) as (new & Hc & Hl & Hv & Hst & Hid).
    exists (event :: new). split_and!.
    + rewrite Hc. unfold changes; simpl. by rewrite <- app_assoc.
    + simpl. by rewrite Hl.
    + rewrite Hv. simpl.
      destruct (replay_spec new (mutate this event)) as (-> & _).
      by destruct (replay_spec new
                     (mutate {| _id := _id this; _version := _version this;
                                _changes := _changes this ++ [event];
                                _state := _state this |} event)) as (-> & _).
    + rewrite Hst. simpl.
      destruct (replay_spec new (mutate this event)) as (_ & _ & _ & ->).
      by destruct (replay_spec new
                     (mutate {| _id := _id this; _version := _version this;
                                _changes := _changes this ++ [event];
                                _state := _state this |} event))
        as (_ & _ & _ & ->).
    + by rewrite Hid.
Qed.

(** The constructor returns only for a truthy id and handlers that
    validate, and then replays the events (none when [events] is falsy). *)
Lemma constructor_returns (opts : option (options St)) (this : aggregate St) :
  constructor validateHandlers opts = Normal this →
  ∃ o, opts = Some o
    ∧ truthy (opt_id o) = true
    ∧ validateHandlers (Aggregate (opt_id o) 0 [] (opt_state o)) = Normal tt
    ∧ this = foldl mutate (Aggregate (opt_id o) 0 [] (opt_state o))
               (match opt_events o with VArr events => events | _ => [] end)
    ∧ (truthy (opt_events o) = true → isArray (opt_events o) = true).
Proof.
  unfold constructor. destruct opts as [o|]; [|done].
  destruct (truthy (opt_id o)) eqn:Hid; [|done]. cbn [negb].
  destruct (truthy (opt_events o) && negb (isArray (opt_events o))) eqn:Hev;
    [done|].
  unfold mbind, completion_bind.
  destruct (validateHandlers _) as [[]|e] eqn:Hvh; [|done].
  intros Hthis. exists o. split_and!; try done.
  - destruct (opt_events o); by injection Hthis as <-.
  - intros Ht. rewrite Ht in Hev. by destruct (isArray (opt_events o)).
Qed.

(** X1.  In a run of [emit] calls with non-empty string types, the
    events appended to [changes] are stamped with consecutive versions,
    starting at the version the aggregate had, each with the id of the
    aggregate and the type and payload it was emitted with; the version
    ends up higher by the number of calls. *)
Theorem emit_all_stamps_consecutive_versions
    (emissions : list (value * value)) (this : aggregate St) :
  Forall emittable emissions →
  ∃ this' new,
    emit_all this emissions = Normal this'
    ∧ changes this' = changes this ++ new
    ∧ version this' = version this + length emissions
    ∧ id this' = id this
    ∧ length new = length emissions
    ∧ ∀ i eventType payload,
        emissions !! i = Some (eventType, payload) →
        ∃ event, new !! i = Some event
          ∧ prop event "version" = VNum (Z.of_nat (version this + i))
          ∧ prop event "aggregateId" = id this
          ∧ prop event "type" = eventType
          ∧ prop event "payload" = payload.
Proof.
  revert this.
  induction emissions as [|[ty payload] emissions IH]; intros this Hall.
  - exists this, []. split_and!; try done.
    all: first [by rewrite app_nil_r | simpl; lia].
  - apply Forall_cons in Hall as [(s & Hty & Hs) Hall]. simpl in Hty. subst ty.
    destruct (emit_nonempty this s payload Hs)
      as (event & Hemit & Hid & Hv & Hty & Hp).
    set (this1 := mutate _ event) in Hemit.
    destruct (IH this1 Hall) as (this' & new & Hrun & Hc & Hver & Hid' & Hl & Hnew).
    exists this', (event :: new). split_and!.
    + cbn [emit_all]. rewrite Hemit. exact Hrun.
    + rewrite Hc. unfold this1, changes; simpl. by rewrite <- app_assoc.
    + rewrite Hver. unfold this1, version; simpl. lia.
    + by rewrite Hid'.
    + simpl. by rewrite Hl.
    + intros [|i] ty' payload' Hi; simpl in Hi.
      * injection Hi as <- <-. exists event.
        rewrite Nat.add_0_r. by split_and!.
      * destruct (Hnew i ty' payload' Hi) as (ev & Hev & Hv' & Hid'' & Hrest).
        exists ev. split; [done|]. split; [|done].
        rewrite Hv'. unfold this1, version; simpl.
        do 2 f_equal. lia.
Qed.

(** X2.  Replaying the history of an aggregate followed by the changes
    it has emitted rebuilds it: the new aggregate has the same id,
    version and state, and no changes of its own. *)
Theorem replaying_changes_rebuilds_aggregate
    (i : value) (s : option St) (history : list value)
    (emissions : list (value * value)) (this this' : aggregate St) :
  constructor validateHandlers (Some (Options i s (VArr history)))
    = Normal this →
  emit_all this emissions = Normal this' →
  ∃ rebuilt,
    constructor validateHandlers
      (Some (Options i s (VArr (history ++ changes this'))))
    = Normal rebuilt
    ∧ id rebuilt = id this'
    ∧ version rebuilt = version this'
    ∧ state rebuilt = state this'
    ∧ changes rebuilt = []
    ∧ version this' = length history + length (changes this').
Proof.
  intros Hc Hrun.
  destruct (constructor_returns _ _ Hc) as (o & [= <-] & Hid & Hvh & -> & _).
  simpl in *.
  destruct (emit_all_replays _ _ _ Hrun) as (new & Hch & Hlen & Hv & Hst & Hi).
  destruct (replay_spec history (Aggregate i 0 [] s)) as (Hv0 & Hc0 & _).
  rewrite Hc0 in Hch. simpl in Hch.
  eexists. split.
  { unfold constructor; simpl. rewrite Hid; simpl. rewrite Hvh. reflexivity. }
  rewrite Hch, foldl_app.
  destruct (replay_spec new (foldl mutate (Aggregate i 0 [] s) history))
    as (Hv1 & Hc1 & Hi1 & _).
  split_and!; try done.
  all: first [ by rewrite Hi1, Hi
             | by rewrite Hc1, Hc0
             | by rewrite Hv, Hv1, Hv0 ].
Qed.

(** X3.  The constructor returns exactly when it is given options with a
    truthy id, [events] that are falsy or an array, and a class whose
    handlers validate; with falsy [events] the aggregate starts at
    version 0, and in every case without changes. *)
Theorem constructor_accepts_exactly (opts : option (options St)) :
  ((∃ this, constructor validateHandlers opts = Normal this)
   ↔ ∃ o, opts = Some o
       ∧ truthy (opt_id o) = true
       ∧ (truthy (opt_events o) = true → isArray (opt_events o) = true)
       ∧ validateHandlers (Aggregate (opt_id o) 0 [] (opt_state o))
         = Normal tt)
  ∧ (∀ this o, constructor validateHandlers opts = Normal this →
       opts = Some o →
       changes this = []
       ∧ id this = opt_id o
       ∧ (truthy (opt_events o) = false →
          version this = 0 ∧ state this = opt_state o)).
Proof.
  split; [split|].
  - intros [this Hc].
    destruct (constructor_returns _ _ Hc) as (o & -> & Hid & Hvh & _ & Hev).
    by exists o.
  - intros (o & -> & Hid & Hev & Hvh). unfold constructor.
    rewrite Hid. cbn [negb].
    assert (Hchk : truthy (opt_events o) && negb (isArray (opt_events o))
                   = false).
    { destruct (truthy (opt_events o)); [|done]. by rewrite Hev. }
    rewrite Hchk. unfold mbind, completion_bind. rewrite Hvh.
    destruct (opt_events o); by eexists.
  - intros this o Hc ->.
    destruct (constructor_returns _ _ Hc) as (o' & [= <-] & _ & _ & -> & _).
    destruct (replay_spec
                (match opt_events o with VArr events => events | _ => [] end)
                (Aggregate (opt_id o) 0 [] (opt_state o)))
      as (_ & -> & -> & _).
    split_and!; try done.
    intros Hfalsy. destruct (opt_events o); try done.
Qed.

End AggregateRuns.

(** ** The event store: validation, augmentation and [commit] *)

(** X4.  The default validator accepts exactly the events, as objects,
    whose type is a non-empty string, that hold a truthy [aggregateId] or
    [sagaId], and whose [sagaVersion] is not [undefined] when [sagaId] is
    truthy; what it throws otherwise is a [TypeError]. *)
Theorem validateEvent_accepts_exactly (event : value) :
  (validateEvent event = Normal tt ↔ valid_event event)
  ∧ (∀ e, validateEvent event = Throw e → ∃ msg, e = TypeError msg).
Proof.
  split; [apply validateEvent_spec|].
  intros e. unfold validateEvent.
  repeat (case_match; [intros [= <-]; by eexists|]). done.
Qed.

(** X5.  When the storage rejects the stream, [commit] rejects with the
    reason of the storage, in either mode of publication: the one call it
    made is [commitEvents], and nothing is published or scheduled. *)
Theorem commit_storage_failure_publishes_nothing (this : EventStore)
    (events stream : list value)
    (sourceCommand : option (gmap string value)) (w : world) (e : error) :
  events ≠ [] →
  augmentEvents (VArr events) sourceCommand (hostname (_config this))
    = Normal stream →
  Forall (fun event => _validator this event = Normal tt) stream →
  commitEvents (_storage this) (trace w) stream = Rejected e →
  commit this (VArr events) sourceCommand w
  = (Normal (Rejected e), set_trace (trace w ++ [CommitEvents stream]) w).
Proof.
  intros Hne Haug Hvalid Hstore.
  rewrite (commit_nonempty _ _ _ _ _ Hne Haug).
  apply forEach_Forall in Hvalid. by rewrite Hvalid, Hstore.
Qed.

(** X6.  With [publishAsync] true and a bus, [commit] resolves to the
    stream as soon as the storage has committed it, whatever the bus
    would answer: it calls [commitEvents], hands the publication to
    [setImmediate], and calls [publish] for no event itself. *)
Theorem commit_async_defers_publication (this : EventStore) (bus : Bus)
    (events stream : list value)
    (sourceCommand : option (gmap string value)) (w : world) :
  publishAsync (_config this) = true →
  _bus this = Some bus →
  events ≠ [] →
  augmentEvents (VArr events) sourceCommand (hostname (_config this))
    = Normal stream →
  Forall (fun event => _validator this event = Normal tt) stream →
  commitEvents (_storage this) (trace w) stream = Fulfilled tt →
  commit this (VArr events) sourceCommand w
  = (Normal (Fulfilled (VArr stream)),
     set_trace (trace w ++ [CommitEvents stream; SetImmediate stream]) w).
Proof.
  intros Hasync Hbus Hne Haug Hvalid Hstore.
  rewrite (commit_nonempty _ _ _ _ _ Hne Haug).
  apply forEach_Forall in Hvalid. rewrite Hvalid, Hstore, Hbus, Hasync.
  cbn zeta. cbn [trace set_trace]. by rewrite set_trace_set_trace, <- app_assoc.
Qed.

(** Every augmented event is an object that has the three keys of the
    extension. *)
Lemma augmented_has_extension_keys (events stream : list value)
    (sourceCommand : option (gmap string value)) (hostname : option string)
    (event : value) :
  augmentEvents (VArr events) sourceCommand hostname = Normal stream →
  event ∈ stream →
  ∃ o, event = VObj o
    ∧ ∀ k, k ∈ ({["sagaId"; "sagaVersion"; "context"]} : gset string) →
           is_Some (o !! k).
Proof.
  simpl. intros [= <-] Hin. unfold EventStream_from in Hin.
  apply list_elem_of_fmap in Hin as (e & -> & _).
  eexists. split; [done|]. intros k Hk. cbn [Object_assign foldl].
  destruct (extension_lookup (default ∅ sourceCommand) hostname)
    as (_ & _ & Hdom & _).
  rewrite lookup_union. rewrite <- Hdom in Hk.
  apply elem_of_dom in Hk as [v Hv].
  rewrite (lookup_union_l' _ ∅ k) by eauto. rewrite Hv.
  by destruct (own_props e !! k).
Qed.

(** X7.  Augmentation leaves an augmented stream as it is: events that a
    store has augmented keep their [sagaId], [sagaVersion] and [context],
    hostname included, whatever command and whatever node they are
    augmented with again. *)
Theorem augmentEvents_keeps_augmented_events (events stream : list value)
    (sourceCommand sourceCommand' : option (gmap string value))
    (hostname hostname' : option string) :
  augmentEvents (VArr events) sourceCommand hostname = Normal stream →
  augmentEvents (VArr stream) sourceCommand' hostname' = Normal stream.
Proof.
  intros Haug. simpl. f_equal. unfold EventStream_from.
  rewrite <- (list_fmap_id stream) at 2. apply list_fmap_ext.
  intros i event Hi.
  destruct (augmented_has_extension_keys _ _ _ _ event Haug) as (o & -> & Hkeys).
  { by eapply list_elem_of_lookup_2. }
  simpl. f_equal. cbn [Object_assign foldl own_props]. apply map_eq. intros k.
  rewrite lookup_union.
  destruct (o !! k) as [v|] eqn:Hk; [by destruct ((_ ∪ ∅) !! k)|].
  rewrite lookup_union, lookup_empty.
  destruct (extension (default ∅ sourceCommand') hostname' !! k) as [v|] eqn:Hx;
    [|done].
  destruct (extension_lookup (default ∅ sourceCommand') hostname')
    as (_ & _ & Hdom & _).
  assert (Hin : k ∈ dom (extension (default ∅ sourceCommand') hostname')).
  { apply elem_of_dom. eauto. }
  rewrite Hdom in Hin. destruct (Hkeys k Hin) as [? Hsome]. congruence.
Qed.

(** ** The event store: subscriptions *)





Section ListenerExtras.

Variable call_result : nat → value → value.
Variable this : EventStore.

(** One delivery, seen from a handler subscribed as it is. *)
Lemma user_loop (f : nat) (q : option string) (event : value)
    (ls : list listener) :
  ∀ w w' : world,
    for_of ls (fun l => run_listener call_result this l event) w
      = (Normal tt, w') →
    (∀ messageType,
       occ (LUser f q) (listeners_of w' messageType)
       = occ (LUser f q) (listeners_of w messageType))
    ∧ calls_by (LUser f q) (trace w')
      = calls_by (LUser f q) (trace w)
        ++ replicate (occ (LUser f q) ls) event.
Proof.
  induction ls as [|l ls IH]; intros w w'; simpl.
  - intros [= <-]. by rewrite app_nil_r.
  - unfold mbind, M_bind.
    destruct (run_listener call_result this l event w) as [[[]|e] w1] eqn:Hrun;
      [|done].
    intros Hrest. destruct (IH _ _ Hrest) as [Hocc Hcalls].
    destruct (run_listener_frame _ _ _ _ _ _ _ Hrun)
      as (_ & _ & Hocc1 & Hcalls1 & _ & _ & Hsame).
    destruct (decide (l = LUser f q)) as [->|Hne].
    + split.
      * intros mt. by rewrite Hocc, Hsame.
      * rewrite Hcalls. simpl in Hrun. injection Hrun as <-.
        simpl. rewrite calls_by_app. simpl.
        rewrite decide_True by done. by rewrite <- app_assoc.
    + split.
      * intros mt. by rewrite Hocc, Hocc1.
      * by rewrite Hcalls, Hcalls1.
Qed.

(** X9.  [on] without a queue name, or on an emitter that has named
    queues itself, needs no hostname and does not touch the map of named
    queues: it subscribes the handler as it is, and the handler is then
    called on every delivered event of the type, whatever node the event
    was committed on. *)
Theorem plain_subscription_sees_every_event
    (messageType : string) (f : nat) (queueName : option string)
    (w0 : world) :
  messageType ≠ "" →
  truthy (opt_str queueName) = false
  ∨ supportsQueues (_emitter this) = true →
  (∀ messageType', LUser f queueName ∉ listeners_of w0 messageType') →
  ∃ w1,
    on this (VStr messageType) (VFun f) queueName w0 = (Normal tt, w1)
    ∧ namedQueues w1 = namedQueues w0
    ∧ listeners_of w1 messageType
      = listeners_of w0 messageType ++ [LUser f queueName]
    ∧ ∀ events w2,
        deliver_all call_result this events w1 = (Normal tt, w2) →
        calls_by (LUser f queueName) (trace w2)
        = calls_by (LUser f queueName) (trace w0)
          ++ List.filter (has_type messageType) events.
Proof.
  intros Hmt Hplain Hfresh. unfold on, emitterSupportsQueues.
  assert (Hlen : negb (truthy (prop (VStr messageType) "length")) = false).
  { destruct messageType; [done | reflexivity]. }
  rewrite Hlen.
  assert (Hcond : truthy (opt_str queueName)
                  && negb (supportsQueues (_emitter this)) = false).
  { destruct Hplain as [-> | ->]; [done | by rewrite andb_false_r]. }
  rewrite Hcond. unfold emitter_on, set_handlers.
  set (w1 := {| namedQueues := namedQueues w0;
                handlers := <[messageType :=
                                listeners_of w0 messageType
                                ++ [LUser f queueName]]> (handlers w0);
                closures := closures w0; trace := trace w0 |}).
  exists w1. split; [reflexivity|].
  assert (Hl : ∀ mt',
             listeners_of w1 mt'
             = if decide (messageType = mt')
               then listeners_of w0 messageType ++ [LUser f queueName]
               else listeners_of w0 mt').
  { intros mt'. apply listeners_of_set_handlers. }
  split_and!; [done | by rewrite Hl, decide_True |].
  assert (Hocc1 : ∀ mt',
             occ (LUser f queueName) (listeners_of w1 mt')
             = if decide (mt' = messageType) then 1 else 0).
  { intros mt'. rewrite Hl.
    assert (Hzero : ∀ mt, occ (LUser f queueName) (listeners_of w0 mt) = 0).
    { intros mt. by apply occ_zero. }
    destruct (decide (messageType = mt')) as [<-|Hne].
    - rewrite decide_True by done. rewrite occ_app, Hzero. simpl.
      by rewrite decide_True.
    - rewrite decide_False by done. apply Hzero. }
  change (trace w0) with (trace w1). clearbody w1. clear Hl.
  intros events. revert w1 Hocc1.
  induction events as [|event events IH]; intros w1 Hocc1 w2; simpl.
  - intros [= <-]. by rewrite app_nil_r.
  - unfold mbind, M_bind.
    destruct (deliver call_result this event w1) as [[[]|e] w1'] eqn:Hd;
      [|done].
    intros Hrest.
    assert (Hstep :
      (∀ mt', occ (LUser f queueName) (listeners_of w1' mt')
              = occ (LUser f queueName) (listeners_of w1 mt'))
      ∧ calls_by (LUser f queueName) (trace w1')
        = calls_by (LUser f queueName) (trace w1)
          ++ (if has_type messageType event then [event] else [])).
    { unfold deliver, has_type in *.
      destruct (prop event "type") as [| | | |mt| | |];
        try (injection Hd as <-; split; [done | by rewrite app_nil_r]).
      destruct (user_loop f queueName event _ _ _ Hd) as [Ho Hc].
      split; [done|]. rewrite Hc, Hocc1. simpl.
      destruct (decide (mt = messageType)) as [->|Hne].
      - by rewrite bool_decide_eq_true_2.
      - by rewrite bool_decide_eq_false_2. }
    destruct Hstep as [Ho Hc].
    rewrite (IH w1'); [| by intros mt'; rewrite Ho | done].
    rewrite Hc, <- app_assoc. f_equal.
    by destruct (has_type messageType event).
Qed.

(** X10.  The map of named queues is keyed by the queue name and the
    message type joined by a colon, so a subscription is refused
    whenever its key is taken: also for a different queue name and
    message type that join to the same key. *)
Theorem named_queue_key_is_the_joined_string
    (messageType queueName messageType' queueName' : string) (f f' : nat)
    (w0 w1 w2 : world) :
  supportsQueues (_emitter this) = false →
  queueName ≠ "" → queueName' ≠ "" → messageType' ≠ "" →
  queueName +:+ ":" +:+ messageType = queueName' +:+ ":" +:+ messageType' →
  on this (VStr messageType) (VFun f) (Some queueName) w0 = (Normal tt, w1) →
  rtc (step call_result this) w1 w2 →
  on this (VStr messageType') (VFun f') (Some queueName') w2
  = (Throw (Error ("'" +:+ (queueName +:+ ":" +:+ messageType) +:+
                   "' handler already set up on this node")), w2).
Proof.
  intros Hsq Hq Hq' Hmt' Hkey Hon Hrtc.
  destruct (on_named_queue _ _ _ _ _ _ Hsq Hq Hon)
    as ((h & Hh & Hhne) & _ & Hnq & _).
  destruct (rtc_step_extends _ _ _ _ Hrtc) as (Hkeep & _).
  assert (Htaken : namedQueues w2 !! (queueName +:+ ":" +:+ messageType)
                   = Some f).
  { apply Hkeep. rewrite Hnq. apply lookup_insert_eq. }
  unfold on, emitterSupportsQueues. rewrite Hsq, Hh.
  assert (Hlen : negb (truthy (prop (VStr messageType') "length")) = false).
  { destruct messageType'; [done | reflexivity]. }
  rewrite Hlen.
  assert (Htq : truthy (opt_str (Some queueName')) = true).
  { simpl. by rewrite bool_decide_eq_false_2. }
  rewrite Htq.
  assert (Hth : negb (truthy (opt_str (Some h))) = false).
  { simpl. by rewrite bool_decide_eq_false_2. }
  rewrite Hth. cbn [negb andb in_template]. rewrite <- Hkey.
  rewrite bool_decide_eq_true_2 by (rewrite Htaken; eauto). done.
Qed.

(** X16.  In a run of deliveries after a handler was subscribed through
    [on] with a queue name, on an emitter without named queues, the calls
    that the wrapper makes are calls of that handler, on exactly the
    delivered events of the type whose [context.hostname] is the hostname
    of the store, in their order; on an event whose [context.hostname]
    is anything else the wrapper returns without effect.  The run
    delivers all the events, or it is ended by an event that has no
    context to read the hostname from and delivers the events before
    it. *)
Theorem named_queue_handler_called_on_own_node_events
    (messageType queueName : string) (f : nat) (events : list value)
    (w0 w1 w2 : world) (r : completion unit) :
  supportsQueues (_emitter this) = false →
  queueName ≠ "" →
  wf w0 →
  on this (VStr messageType) (VFun f) (Some queueName) w0 = (Normal tt, w1) →
  deliver_all call_result this events w1 = (r, w2) →
  let wrapper := LQueue (queueName +:+ ":" +:+ messageType) f in
  listeners_of w1 messageType = listeners_of w0 messageType ++ [wrapper]
  ∧ (∃ delivered,
       match r with
       | Normal _ => delivered = events
       | Throw e =>
           ∃ event rest, events = delivered ++ event :: rest
                         ∧ context_hostname event = Throw e
       end
       ∧ calls_of wrapper (trace w2)
         = calls_of wrapper (trace w0)
           ++ ((fun event => (f, event))
                 <$> List.filter (fun event => has_type messageType event
                                               && from_this_node this event)
                       delivered))
  ∧ (∀ event, from_this_node this event = true ↔
       context_hostname event = Normal (opt_str (hostname (_config this))))
  ∧ (∀ event node w,
       context_hostname event = Normal node →
       node ≠ opt_str (hostname (_config this)) →
       run_listener call_result this wrapper event w = (Normal tt, w)).
Proof.
  intros Hsq Hq Hwf Hon Hrun wrapper.
  destruct (on_named_queue _ _ _ _ _ _ Hsq Hq Hon)
    as ((h & Hh & Hhne) & Hfree & Hnq & Hc & Ht & Hl).
  assert (Hstr : ∀ node, is_string h node = true ↔ node = VStr h).
  { intros node. destruct node; simpl; try (split; done).
    rewrite bool_decide_eq_true. split; congruence. }
  split_and!.
  - rewrite Hl. by rewrite decide_True.
  - rewrite <- Ht.
    apply (queue_deliver_all call_result this _ _ h messageType events Hh
             w1 w2 r); [|done].
    intros mt'. rewrite Hl.
    assert (Hfresh : ∀ mt, occ wrapper (listeners_of w0 mt) = 0).
    { intros mt. apply occ_zero. intros Hin. specialize (Hwf _ _ Hin).
      simpl in Hwf. rewrite Hfree in Hwf. by destruct Hwf. }
    destruct (decide (messageType = mt')) as [->|Hne].
    + rewrite decide_True by done. rewrite occ_app, Hfresh. simpl.
      by rewrite decide_True.
    + rewrite decide_False by done. apply Hfresh.
  - intros event. rewrite (from_this_node_spec _ _ _ Hh), Hh. simpl.
    destruct (context_hostname event) as [node|]; [|done].
    rewrite Hstr. split; congruence.
  - intros event node w Hctx Hne. unfold wrapper.
    rewrite (queue_wrapper_spec _ _ _ _ _ _ _ Hh), Hctx.
    destruct (is_string h node) eqn:His; [|done].
    apply Hstr in His. rewrite Hh in Hne. by subst.
Qed.

(** Every step keeps one wrapper per key. *)
Lemma step_one_wrapper_per_key (w w' : world) :
  one_wrapper_per_key w → step call_result this w w' →
  one_wrapper_per_key w'.
Proof.
  intros Hinv Hstep. revert Hinv.
  destruct Hstep as [events src w0 r w1 Hc|mt h q w0 r w1 Hon
                    |mts h flt w0 r w1 Honce|event w0 r w1 Hd];
    intros [Hin Hone].
  - destruct (commit_frame _ _ _ _ _ _ Hc) as (Hq & Hh & Hcl).
    unfold one_wrapper_per_key, listeners_of in *. rewrite Hq, Hh. done.
  - destruct (on_cases _ _ _ _ _ _ _ Hon)
      as [[-> _]|(mt' & l & Hcl & Hl & Hq & Hnot)]; [done|].
    assert (Hocc : ∀ key f mt'',
              LQueue key f ≠ l →
              occ (LQueue key f) (listeners_of w1 mt'')
              = occ (LQueue key f) (listeners_of w0 mt'')).
    { intros key f mt'' Hne. rewrite Hl. case_decide; subst; [|done].
      rewrite occ_app. simpl. rewrite decide_False by done. lia. }
    destruct l as [f0 q0|key0 f0|k0]; [| |by destruct (Hnot k0)].
    + split.
      * intros key f mt'' Hmem. rewrite Hq. apply (Hin key f mt'').
        apply occ_pos. rewrite <- Hocc by done. by apply occ_pos.
      * intros key f Hkey. rewrite Hq in Hkey.
        destruct (Hone key f Hkey) as [mt0 Hmt0]. exists mt0.
        intros mt''. rewrite Hocc by done. apply Hmt0.
    + destruct Hq as [Hfree Hq].
      assert (Hnone : ∀ f mt'', occ (LQueue key0 f) (listeners_of w0 mt'') = 0).
      { intros f mt''. apply occ_zero. intros Hmem.
        specialize (Hin _ _ _ Hmem). congruence. }
      split.
      * intros key f mt'' Hmem. rewrite Hq.
        destruct (decide (LQueue key f = LQueue key0 f0)) as [[= -> ->]|Hne].
        { apply lookup_insert_eq. }
        apply occ_pos in Hmem. rewrite Hocc in Hmem by done.
        apply occ_pos in Hmem. specialize (Hin _ _ _ Hmem).
        rewrite lookup_insert_ne; [done|]. intros <-. congruence.
      * intros key f Hkey. rewrite Hq in Hkey.
        destruct (decide (key0 = key)) as [<-|Hne].
        -- rewrite lookup_insert_eq in Hkey. injection Hkey as <-.
           exists mt'. intros mt''. rewrite Hl.
           destruct (decide (mt' = mt'')) as [<-|Hne'].
           ++ rewrite decide_True by done. rewrite occ_app, Hnone. simpl.
              by rewrite decide_True.
           ++ rewrite decide_False by done. apply Hnone.
        -- rewrite lookup_insert_ne in Hkey by done.
           destruct (Hone key f Hkey) as [mt0 Hmt0]. exists mt0.
           intros mt''. rewrite Hocc by congruence. apply Hmt0.
  - destruct (once_cases _ _ _ _ _ _ Honce)
      as [->|(c & types & Hcl & Hq & Hl)]; [done|].
    assert (Hocc : ∀ key f mt'',
              occ (LQueue key f) (listeners_of w1 mt'')
              = occ (LQueue key f) (listeners_of w0 mt'')).
    { intros key f mt''. rewrite Hl, occ_app, occ_replicate_ne by done. lia. }
    split.
    + intros key f mt'' Hmem. rewrite Hq. apply (Hin key f mt'').
      apply occ_pos. rewrite <- Hocc. by apply occ_pos.
    + intros key f Hkey. rewrite Hq in Hkey.
      destruct (Hone key f Hkey) as [mt0 Hmt0]. exists mt0.
      intros mt''. rewrite Hocc. apply Hmt0.
  - destruct (deliver_frame _ _ _ _ _ _ Hd) as (Hq & _ & Hsub & Hocc).
    split.
    + intros key f mt'' Hmem. rewrite Hq. apply (Hin key f mt''), Hsub, Hmem.
    + intros key f Hkey. rewrite Hq in Hkey.
      destruct (Hone key f Hkey) as [mt0 Hmt0]. exists mt0.
      intros mt''. rewrite Hocc. apply Hmt0.
Qed.

(** X11.  In every world that the program reaches from the empty one,
    through calls of [commit], [on] and [once] and through deliveries,
    each entry of the map of named queues has exactly one wrapper, with
    the handler of the entry, subscribed once and to one message type,
    and the emitter holds no wrapper without an entry. *)
Theorem reachable_one_wrapper_per_key (w : world) :
  rtc (step call_result this) empty_world w → one_wrapper_per_key w.
Proof.
  intros Hrtc.
  assert (Hinit : one_wrapper_per_key empty_world).
  { split.
    - intros key f mt Hmem. by apply elem_of_nil in Hmem.
    - intros key f Hkey. simpl in Hkey. by rewrite lookup_empty in Hkey. }
  revert Hinit. induction Hrtc as [|w w1 w2 Hstep _ IH]; [done|].
  intros Hinv. by apply IH, (step_one_wrapper_per_key w).
Qed.

End ListenerExtras.

(** ** The event store: construction *)

Lemma findIndex_spec {A : Type} (p : A → bool) (l : list A) :
  (-1 ≤ findIndex p l)%Z
  ∧ (findIndex p l = (-1)%Z ↔ Forall (fun x => p x = false) l).
Proof.
  induction l as [|x l [IHge IH]]; simpl.
  - split; [lia|]. split; [constructor | done].
  - destruct (p x) eqn:Hx.
    + split; [lia|]. split; [lia|]. intros HF. apply Forall_cons in HF as [? _].
      congruence.
    + destruct (findIndex p l =? -1)%Z eqn:Hi.
      * apply Z.eqb_eq in Hi. split; [lia|]. split; [|done].
        intros _. constructor; [done | by apply IH].
      * apply Z.eqb_neq in Hi. split; [lia|]. split; [lia|].
        intros HF. apply Forall_cons in HF as [_ HF]. by apply IH in HF.
Qed.

Lemma respondsTo_spec (instance : string → bool) (methodNames : list string) :
  respondsTo instance methodNames = true
  ↔ ∀ m, m ∈ methodNames → instance m = true.
Proof.
  unfold respondsTo. rewrite Z.eqb_eq.
  destruct (findIndex_spec (fun m => negb (instance m)) methodNames) as [_ ->].
  rewrite Forall_forall. split; intros Hall m Hm; specialize (Hall m Hm).
  - by destruct (instance m).
  - by rewrite Hall.
Qed.

Lemma respondsTo_one (instance : string → bool) (m : string) :
  respondsTo instance [m] = instance m.
Proof. unfold respondsTo; simpl. by destruct (instance m). Qed.

Section ConstructionProperties.

Variable validator_of : nat → value → completion unit.
Variable InMemoryBus : Bus * Emitter.

(** The store that the constructor returns, when it returns. *)
Lemma new_EventStore_returns (storage : option StorageObject)
    (messageBus : option BusObject) (eventValidator : value)
    (eventStoreConfig : option ConfigOptions) (this : EventStore) :
  new_EventStore validator_of InMemoryBus storage messageBus eventValidator
    eventStoreConfig = Normal this →
  ∃ st, storage = Some st
    ∧ respondsTo (storage_has st) STORAGE_METHODS = true
    ∧ (∀ bus, messageBus = Some bus → bus_has bus "on" = true)
    ∧ (eventValidator = VUndefined ∨ ∃ f, eventValidator = VFun f)
    ∧ _config this = assign_config eventStoreConfig
    ∧ _storage this = storage_calls st
    ∧ _validator this = match eventValidator with
                        | VFun f => validator_of f
                        | _ => validateEvent
                        end
    ∧ (_bus this, _emitter this)
      = match messageBus with
        | Some bus => (Some (bus_calls bus), bus_emitter bus)
        | None =>
            if storage_has st "on" then (None, storage_emitter st)
            else (Some InMemoryBus.1, InMemoryBus.2)
        end.
Proof.
  unfold new_EventStore. destruct storage as [st|]; [|done].
  destruct (respondsTo (storage_has st) STORAGE_METHODS) eqn:Hst; [|done].
  cbn [negb].
  destruct (match messageBus with Some _ => _ | None => false end) eqn:Hbus;
    [done|].
  destruct (negb _ && _) eqn:Hval; [done|].
  assert (Hv : eventValidator = VUndefined ∨ ∃ f, eventValidator = VFun f).
  { destruct eventValidator; try done; eauto. }
  assert (Hon : ∀ bus, messageBus = Some bus → bus_has bus "on" = true).
  { intros bus ->. unfold EMITTER_METHODS in Hbus.
    rewrite respondsTo_one in Hbus. by destruct (bus_has bus "on"). }
  unfold EMITTER_METHODS. rewrite respondsTo_one.
  destruct messageBus as [bus|].
  - intros [= <-]. exists st. by split_and!.
  - destruct (storage_has st "on") eqn:Hemits; intros [= <-]; exists st;
      rewrite Hemits; by split_and!.
Qed.

(** X12.  The constructor returns exactly when it is given a storage
    that has the five storage methods, a message bus, if any, that has
    an [on] method, and an event validator that is [undefined] or a
    function; for a storage that lacks a method it throws a [TypeError]
    that lists the missing methods. *)
Theorem new_EventStore_accepts_exactly (storage : option StorageObject)
    (messageBus : option BusObject) (eventValidator : value)
    (eventStoreConfig : option ConfigOptions) :
  ((∃ this, new_EventStore validator_of InMemoryBus storage messageBus
              eventValidator eventStoreConfig = Normal this)
   ↔ ∃ st, storage = Some st
       ∧ (∀ m, m ∈ STORAGE_METHODS → storage_has st m = true)
       ∧ (∀ bus, messageBus = Some bus → bus_has bus "on" = true)
       ∧ (eventValidator = VUndefined ∨ ∃ f, eventValidator = VFun f))
  ∧ (∀ st, storage = Some st →
       (∃ m, m ∈ STORAGE_METHODS ∧ storage_has st m = false) →
       new_EventStore validator_of InMemoryBus storage messageBus
         eventValidator eventStoreConfig
       = Throw (TypeError
                  ("storage does not support methods: " +:+
                   String.concat ","
                     (List.filter (fun m => negb (storage_has st m))
                        STORAGE_METHODS)))).
Proof.
  split; [split|].
  - intros [this Hnew].
    destruct (new_EventStore_returns _ _ _ _ _ Hnew)
      as (st & -> & Hst & Hbus & Hv & _).
    exists st. split_and!; try done. by apply respondsTo_spec.
  - intros (st & -> & Hst & Hbus & Hv). unfold new_EventStore.
    apply respondsTo_spec in Hst. rewrite Hst. cbn [negb].
    assert (Hb : match messageBus with
                 | Some bus => negb (respondsTo (bus_has bus) EMITTER_METHODS)
                 | None => false
                 end = false).
    { destruct messageBus as [bus|]; [|done].
      unfold EMITTER_METHODS. rewrite respondsTo_one, (Hbus bus); done. }
    rewrite Hb.
    assert (Hval : negb (if eventValidator is VUndefined then true else false)
                   && bool_decide (typeof eventValidator ≠ "function")
                   = false).
    { by destruct Hv as [-> | [f ->]]. }
    rewrite Hval.
    destruct messageBus as [bus|]; [by eexists|].
    destruct (respondsTo (storage_has st) EMITTER_METHODS); by eexists.
  - intros st -> (m & Hm & Hmissing). unfold new_EventStore.
    assert (Hst : respondsTo (storage_has st) STORAGE_METHODS = false).
    { destruct (respondsTo _ _) eqn:Hr; [|done].
      rewrite respondsTo_spec in Hr. specialize (Hr m Hm). congruence. }
    rewrite Hst. cbn [negb]. do 3 f_equal.
    unfold STORAGE_METHODS. simpl. by rewrite !respondsTo_one.
Qed.

(** The trace after [commit] is the trace before, followed by what
    [commit] recorded. *)
Lemma commit_trace (this : EventStore) (events : value)
    (sourceCommand : option (gmap string value)) (w w' : world)
    (r : completion (settled value)) :
  commit this events sourceCommand w = (r, w') →
  ∃ tr, trace w' = trace w ++ tr
    ∧ (_bus this = None → ∀ e, e ∈ tr → ∃ stream, e = CommitEvents stream)
    ∧ (publishAsync (_config this) = true → ∀ event, Publish event ∉ tr).
Proof.
  assert (Hnone : ∃ tr, trace w = trace w ++ tr
            ∧ (_bus this = None →
               ∀ e, e ∈ tr → ∃ stream, e = CommitEvents stream)
            ∧ (publishAsync (_config this) = true →
               ∀ event, Publish event ∉ tr)).
  { exists []. rewrite app_nil_r. split_and!; [done | |].
    - intros _ e He. by apply elem_of_nil in He.
    - intros _ ev He. by apply elem_of_nil in He. }
  destruct events as [| | | | | |events|];
    try (intros [= <- <-]; done).
  destruct events as [|event events]; [by intros [= <- <-]|].
  rewrite (commit_nonempty this (event :: events) _ sourceCommand w
             ltac:(done) eq_refl).
  destruct (forEach _ _) as [[]|e]; [|by intros [= <- <-]].
  cbn zeta.
  assert (Hone : ∀ stream, ∃ tr,
            trace w ++ [CommitEvents stream] = trace w ++ tr
            ∧ (_bus this = None →
               ∀ e, e ∈ tr → ∃ stream, e = CommitEvents stream)
            ∧ (publishAsync (_config this) = true →
               ∀ event, Publish event ∉ tr)).
  { intros stream. exists [CommitEvents stream]. split_and!; [done | |].
    - intros _ e He. apply list_elem_of_singleton in He as ->. eauto.
    - intros _ ev He. by apply list_elem_of_singleton in He. }
  destruct (commitEvents _ _ _) as [[]|e]; [|intros [= <- <-]; apply Hone].
  destruct (_bus this) as [bus|] eqn:Hbus; [|intros [= <- <-]; apply Hone].
  destruct (publishAsync _) eqn:Hasync; intros [= <- <-]; simpl.
  - eexists [_; _]. rewrite <- app_assoc. split_and!; [done | done |].
    intros _ ev He. apply elem_of_cons in He as [He|He]; [done|].
    by apply list_elem_of_singleton in He.
  - eexists (_ :: _). rewrite <- app_assoc. by split_and!.
Qed.

(** X13.  A store built without a message bus on a storage that has an
    [on] method listens to the storage and has no bus: whatever it is
    given, [commit] on such a store calls nothing but [commitEvents], so
    the store publishes no event and schedules no publication. *)
Theorem store_on_emitting_storage_never_publishes
    (st : StorageObject) (eventValidator : value)
    (eventStoreConfig : option ConfigOptions) (this : EventStore) :
  new_EventStore validator_of InMemoryBus (Some st) None eventValidator
    eventStoreConfig = Normal this →
  storage_has st "on" = true →
  _bus this = None
  ∧ _emitter this = storage_emitter st
  ∧ ∀ events sourceCommand w r w',
      commit this events sourceCommand w = (r, w') →
      ∃ tr, trace w' = trace w ++ tr
        ∧ ∀ e, e ∈ tr → ∃ stream, e = CommitEvents stream.
Proof.
  intros Hnew Hon.
  destruct (new_EventStore_returns _ _ _ _ _ Hnew)
    as (st' & [= <-] & _ & _ & _ & _ & _ & _ & Hsel).
  rewrite Hon in Hsel. injection Hsel as Hbus Hem.
  split_and!; [done | done |].
  intros events src w r w' Hc.
  destruct (commit_trace _ _ _ _ _ _ Hc) as (tr & Htr & Hnobus & _).
  exists tr. split; [done|]. by apply Hnobus.
Qed.

(** X14.  A store built without [eventStoreConfig] has the default
    configuration: it has no hostname, so on an emitter without named
    queues every subscription with a queue name throws, and it publishes
    asynchronously, so [commit] never calls [publish] itself.  Built
    without an event validator, it validates with [validateEvent]. *)
Theorem store_built_with_defaults (storage : option StorageObject)
    (messageBus : option BusObject) (this : EventStore) :
  new_EventStore validator_of InMemoryBus storage messageBus VUndefined None
    = Normal this →
  _config this = defaults
  ∧ _validator this = validateEvent
  ∧ (supportsQueues (_emitter this) = false →
     ∀ messageType handler queueName w,
       queueName ≠ "" →
       ∃ e, on this messageType handler (Some queueName) w = (Throw e, w))
  ∧ (∀ events sourceCommand w r w',
       commit this events sourceCommand w = (r, w') →
       ∃ tr, trace w' = trace w ++ tr ∧ ∀ event, Publish event ∉ tr).
Proof.
  intros Hnew.
  destruct (new_EventStore_returns _ _ _ _ _ Hnew)
    as (st & _ & _ & _ & _ & Hcfg & _ & Hval & _).
  simpl in Hcfg, Hval. split_and!; [done | done | |].
  - intros Hsq mt handler q w Hq. unfold on, emitterSupportsQueues.
    rewrite Hsq, Hcfg. simpl. rewrite (bool_decide_eq_false_2 _ Hq). simpl.
    destruct mt as [| | | |mt| | |]; try by eexists.
    destruct (negb _); [by eexists|].
    destruct handler; by eexists.
  - intros events src w r w' Hc.
    destruct (commit_trace _ _ _ _ _ _ Hc) as (tr & Htr & _ & Hasync).
    exists tr. split; [done|]. apply Hasync. by rewrite Hcfg.
Qed.

End ConstructionProperties.

(** ** The event store: queries *)

(** X15.  The query methods check their arguments before they ask the
    storage, and hand on what the storage answers.  [getAllEvents]
    rejects event types that are truthy and not an array;
    [getAggregateEvents] rejects a falsy aggregate id; [getSagaEvents]
    rejects a falsy saga id, a falsy filter, a falsy [filter.beforeEvent]
    and an [undefined] [filter.beforeEvent.sagaVersion].  A rejected call
    makes no query; any other call makes exactly one, with the arguments
    it was given, and settles as the promise of the storage does, with
    the events in the order of the storage. *)
Theorem queries_check_then_delegate (storage : Reads) (log : list query) :
  (∀ eventTypes,
     (truthy eventTypes = true → isArray eventTypes = true) →
     getAllEvents storage eventTypes log
     = (storage_getEvents storage log eventTypes,
        log ++ [QEvents eventTypes]))
  ∧ (∀ eventTypes,
       truthy eventTypes = true → isArray eventTypes = false →
       ∃ msg, getAllEvents storage eventTypes log
              = (Rejected (TypeError msg), log))
  ∧ (∀ aggregateId filter,
       truthy aggregateId = true →
       getAggregateEvents storage aggregateId filter log
       = (storage_getAggregateEvents storage log aggregateId filter,
          log ++ [QAggregateEvents aggregateId filter]))
  ∧ (∀ aggregateId filter,
       truthy aggregateId = false →
       ∃ msg, getAggregateEvents storage aggregateId filter log
              = (Rejected (TypeError msg), log))
  ∧ (∀ sagaId filter,
       truthy sagaId = true → truthy filter = true →
       truthy (prop filter "beforeEvent") = true →
       prop (prop filter "beforeEvent") "sagaVersion" ≠ VUndefined →
       getSagaEvents storage sagaId filter log
       = (storage_getSagaEvents storage log sagaId filter,
          log ++ [QSagaEvents sagaId filter]))
  ∧ (∀ sagaId filter,
       truthy sagaId = false ∨ truthy filter = false
       ∨ truthy (prop filter "beforeEvent") = false
       ∨ prop (prop filter "beforeEvent") "sagaVersion" = VUndefined →
       ∃ msg, getSagaEvents storage sagaId filter log
              = (Rejected (TypeError msg), log)).
Proof.
  assert (Hstream : ∀ answer q,
            stream_of answer q log = (answer, log ++ [q])).
  { intros [events|e] q; unfold stream_of, EventStream_from; [|done].
    by rewrite list_fmap_id. }
  split_and!.
  - intros eventTypes Harr. unfold getAllEvents.
    destruct (truthy eventTypes); [rewrite Harr by done|]; apply Hstream.
  - intros eventTypes Ht Harr. unfold getAllEvents. rewrite Ht, Harr.
    by eexists.
  - intros aggregateId filter Ht. unfold getAggregateEvents. rewrite Ht.
    apply Hstream.
  - intros aggregateId filter Ht. unfold getAggregateEvents. rewrite Ht.
    by eexists.
  - intros sagaId filter Hs Hf Hb Hv. unfold getSagaEvents.
    rewrite Hs, Hf, Hb. cbn [negb].
    destruct (prop (prop filter "beforeEvent") "sagaVersion"); try done;
      apply Hstream.
  - intros sagaId filter Hbad. unfold getSagaEvents.
    destruct (truthy sagaId); [|by eexists]. cbn [negb].
    destruct (truthy filter); [|by eexists]. cbn [negb].
    destruct (truthy (prop filter "beforeEvent")); [|by eexists]. cbn [negb].
    destruct Hbad as [?|[?|[?|Hv]]]; try done. rewrite Hv. by eexists.
Qed.

(** ** The further properties at sample data *)

Lemma emit_all_stamps_consecutive_versions_witness :
  ∃ this' new,
    emit_all rebuilt_a1 two_emissions = Normal this'
    ∧ changes this' = changes rebuilt_a1 ++ new
    ∧ version this' = version rebuilt_a1 + 2
    ∧ ∃ event, new !! 1 = Some event
        ∧ prop event "version" = VNum 3
        ∧ prop event "type" = VStr "Closed".
Proof.
  destruct (emit_all_stamps_consecutive_versions two_emissions rebuilt_a1)
    as (this' & new & Hrun & Hch & Hv & _ & _ & Hnew).
  - repeat constructor; eexists; (split; [reflexivity | discriminate]).
  - exists this', new. split_and!; [exact Hrun | exact Hch | exact Hv |].
    destruct (Hnew 1 (VStr "Closed") VUndefined eq_refl)
      as (event & Hev & Hver & _ & Hty & _).
    exists event. split_and!; [exact Hev | exact Hver | exact Hty].
Defined.

Lemma replaying_changes_rebuilds_aggregate_witness :
  ∃ this' rebuilt : aggregate nat,
    emit_all rebuilt_a1 two_emissions = Normal this'
    ∧ constructor (fun _ => Normal tt)
        (Some (Options (VStr "a1") (Some 0)
                 (VArr ([created; renamed] ++ changes this'))))
      = Normal rebuilt
    ∧ version rebuilt = version this'
    ∧ state rebuilt = state this'.
Proof.
  destruct (emit_all rebuilt_a1 two_emissions) as [this'|] eqn:Hrun;
    [|vm_compute in Hrun; discriminate].
  destruct (replaying_changes_rebuilds_aggregate (fun _ => Normal tt)
              (VStr "a1") (Some 0) [created; renamed] two_emissions
              rebuilt_a1 this' eq_refl Hrun)
    as (rebuilt & Hc & _ & Hv & Hs & _).
  exists this', rebuilt. split_and!; [reflexivity | exact Hc | exact Hv | exact Hs].
Defined.

Lemma commit_storage_failure_publishes_nothing_witness :
  commit node_with_full_storage (VArr [created]) None empty_world
  = (Normal (Rejected (Error "disk is full")),
     set_trace
       [CommitEvents (augmented [created] None node_with_full_storage)]
       empty_world).
Proof.
  apply (commit_storage_failure_publishes_nothing node_with_full_storage
           [created] (augmented [created] None node_with_full_storage)
           None empty_world).
  - discriminate.
  - reflexivity.
  - apply forEach_Forall. vm_compute. reflexivity.
  - reflexivity.
Defined.

Lemma commit_async_defers_publication_witness :
  commit anonymous_flaky (VArr [created; renamed]) None empty_world
  = (Normal (Fulfilled (VArr (augmented [created; renamed] None
                                anonymous_flaky))),
     set_trace
       [CommitEvents (augmented [created; renamed] None anonymous_flaky);
        SetImmediate (augmented [created; renamed] None anonymous_flaky)]
       empty_world).
Proof.
  apply (commit_async_defers_publication anonymous_flaky flaky_bus
           [created; renamed]
           (augmented [created; renamed] None anonymous_flaky)
           None empty_world).
  - reflexivity.
  - reflexivity.
  - discriminate.
  - reflexivity.
  - apply forEach_Forall. vm_compute. reflexivity.
  - reflexivity.
Defined.

Lemma augmentEvents_keeps_augmented_events_witness :
  augmentEvents (VArr (augmented [created] (Some command) (node1 ok_bus)))
    (Some relayed) None
  = Normal (augmented [created] (Some command) (node1 ok_bus)).
Proof.
  apply (augmentEvents_keeps_augmented_events [created] _ (Some command)
           (Some relayed) (Some "node1") None).
  reflexivity.
Defined.

Lemma plain_subscription_sees_every_event_witness :
  ∃ w1,
    on anonymous (VStr "Created") (VFun 3) None empty_world = (Normal tt, w1)
    ∧ namedQueues w1 = ∅.
Proof.
  destruct (plain_subscription_sees_every_event always anonymous
              "Created" 3 None empty_world) as (w1 & Hon & Hq & _).
  - discriminate.
  - left. reflexivity.
  - intros mt Hin. exact (proj1 (elem_of_nil _) Hin).
  - exists w1. split; [exact Hon | exact Hq].
Defined.

Lemma named_queue_key_is_the_joined_string_witness :
  on (node1 ok_bus) (VStr "b:c") (VFun 2) (Some "a") colliding_world
  = (Throw (Error "'a:b:c' handler already set up on this node"),
     colliding_world).
Proof.
  apply (named_queue_key_is_the_joined_string always (node1 ok_bus)
           "c" "a:b" "b:c" "a" 1 2 empty_world colliding_world
           colliding_world).
  - reflexivity.
  - discriminate.
  - discriminate.
  - discriminate.
  - reflexivity.
  - vm_compute. reflexivity.
  - apply rtc_refl.
Defined.

Lemma reachable_one_wrapper_per_key_witness :
  one_wrapper_per_key queue_delivered.
Proof.
  apply (reachable_one_wrapper_per_key always (node1 ok_bus)).
  eapply rtc_l.
  - apply (step_on always (node1 ok_bus) (VStr "Created") (VFun 7)
             (Some "q1") empty_world (Normal tt) queue_world).
    vm_compute. reflexivity.
  - apply (deliver_all_steps always (node1 ok_bus) queue_events
             queue_world queue_delivered (Normal tt)).
    vm_compute. reflexivity.
Defined.

Lemma store_on_emitting_storage_never_publishes_witness :
  ∃ this,
    new_EventStore no_validators (ok_bus, plain_emitter)
      (Some emitting_storage) None VUndefined None = Normal this
    ∧ _bus this = None.
Proof.
  destruct (new_EventStore no_validators (ok_bus, plain_emitter)
              (Some emitting_storage) None VUndefined None)
    as [this|] eqn:Hnew; [|vm_compute in Hnew; discriminate].
  destruct (store_on_emitting_storage_never_publishes no_validators
              (ok_bus, plain_emitter) emitting_storage VUndefined None this
              Hnew eq_refl) as (Hbus & _).
  exists this. split; [reflexivity | exact Hbus].
Defined.

Lemma store_built_with_defaults_witness :
  ∃ this,
    new_EventStore no_validators (ok_bus, plain_emitter)
      (Some silent_storage) None VUndefined None = Normal this
    ∧ _config this = defaults
    ∧ _validator this = validateEvent.
Proof.
  destruct (new_EventStore no_validators (ok_bus, plain_emitter)
              (Some silent_storage) None VUndefined None)
    as [this|] eqn:Hnew; [|vm_compute in Hnew; discriminate].
  destruct (store_built_with_defaults no_validators (ok_bus, plain_emitter)
              (Some silent_storage) None this Hnew) as (Hc & Hv & _).
  exists this. split_and!; [reflexivity | exact Hc | exact Hv].
Defined.

Lemma named_queue_handler_called_on_own_node_events_witness :
  calls_of (LQueue "q1:Created" 7) (trace queue_delivered)
  = [(7, committed_on "node1" "Created")].
Proof.
  destruct (named_queue_handler_called_on_own_node_events always
              (node1 ok_bus) "Created" "q1" 7 queue_events
              empty_world queue_world queue_delivered (Normal tt))
    as (_ & (delivered & -> & Hcalls) & _).
  - reflexivity.
  - discriminate.
  - exact wf_empty.
  - vm_compute. reflexivity.
  - vm_compute. reflexivity.
  - exact Hcalls.
Defined.
